(** * Enrichment and normalisation pipeline of the article writer

    A shallow embedding of the service layer ([gemini.ts]: [splitTextForTTS],
    [generateSpeech], [pcmToWav], [addIllustrationsToArticle]) and of the
    formatter of [App.tsx] ([formatHtmlForWeChat]), with the properties the
    specification states about them.

    JavaScript strings are sequences of UTF-16 code units: a string is a
    [list Z], [length] is the [.length] of the source. *)

From Stdlib Require Import String Ascii ZArith List Bool Lia.
From ExtLib Require Import Structures.Monad Structures.MonadExc Data.Monads.EitherMonad.
Import ListNotations.

(* ===================================================================== *)
(** * JavaScript string primitives used by the services                  *)
(* ===================================================================== *)

Module JS.

Definition char := Z.
Definition str := list char.

(** An ASCII literal of the source as a sequence of code units. *)
Definition lit (s : String.string) : str :=
  map (fun a => Z.of_nat (nat_of_ascii a)) (list_ascii_of_string s).

Definition eqc (a b : char) : bool := Z.eqb a b.

Fixpoint eqs (a b : str) : bool :=
  match a, b with
  | [], [] => true
  | x :: a', y :: b' => eqc x y && eqs a' b'
  | _, _ => false
  end.

(** A string is truthy when it is not empty. *)
Definition truthy (s : str) : bool :=
  match s with [] => false | _ :: _ => true end.

(** WhiteSpace and LineTerminator code units, the ones [trim] strips. *)
Definition isWhiteSpace (c : char) : bool :=
  existsb (eqc c)
    [9; 10; 11; 12; 13; 32; 160; 5760; 8232; 8233; 8239; 8287; 12288; 65279]%Z
  || ((8192 <=? c) && (c <=? 8202))%Z.

Fixpoint trimStart (s : str) : str :=
  match s with
  | [] => []
  | c :: s' => if isWhiteSpace c then trimStart s' else s
  end.

Definition trimEnd (s : str) : str := rev (trimStart (rev s)).

(** [String.prototype.trim] *)
Definition trim (s : str) : str := trimEnd (trimStart s).

(** [s.substring(0, n)] for [0 <= n] *)
Definition substring0 (n : nat) (s : str) : str := firstn n s.

(** [s] starts with [p], code unit by code unit; the rest of [s] after it. *)
Fixpoint stripPrefix (p s : str) : option str :=
  match p, s with
  | [], _ => Some s
  | _ :: _, [] => None
  | x :: p', y :: s' => if eqc x y then stripPrefix p' s' else None
  end.

(** [s.indexOf(p)]: the leftmost index at which [p] occurs, if any. *)
Fixpoint indexOf (p s : str) : option nat :=
  match stripPrefix p s with
  | Some _ => Some 0%nat
  | None =>
      match s with
      | [] => None
      | _ :: s' => option_map S (indexOf p s')
      end
  end.

(** [s.includes(p)] *)
Definition includes (s p : str) : bool :=
  match indexOf p s with Some _ => true | None => false end.

Definition dollar : char := 36%Z.

Definition isDigit (c : char) : bool := ((48 <=? c) && (c <=? 57))%Z.
Definition digitVal (c : char) : nat := Z.to_nat (c - 48).

(** [GetSubstitution(matched, str, position, captures, undefined, template)]:
    the expansion of the [$] patterns of a replacement string.  [before] is
    the part of the subject in front of the match, [after] the part behind
    it.  No regular expression of the services has a named group, so [$<]
    stays as it is. *)
Fixpoint GetSubstitution (matched before after : str) (captures : list str)
    (template : str) : str :=
  match template with
  | [] => []
  | c :: t1 =>
      if negb (eqc c dollar) then
        c :: GetSubstitution matched before after captures t1
      else
        match t1 with
        | [] => [c]
        | d :: t2 =>
            if eqc d dollar then                      (* [$$]: one [$] *)
              dollar :: GetSubstitution matched before after captures t2
            else if eqc d 96%Z then                   (* [$`]: what is before *)
              before ++ GetSubstitution matched before after captures t2
            else if eqc d 38%Z then                   (* [$&]: the match *)
              matched ++ GetSubstitution matched before after captures t2
            else if eqc d 39%Z then                   (* [$']: what is behind *)
              after ++ GetSubstitution matched before after captures t2
            else if isDigit d then                    (* [$n], [$nn]: a group *)
              let m := length captures in
              let one (_ : unit) :=
                let i := digitVal d in
                if ((1 <=? i) && (i <=? m))%nat then
                  nth (i - 1) captures []
                    ++ GetSubstitution matched before after captures t2
                else
                  c :: d :: GetSubstitution matched before after captures t2 in
              match t2 with
              | e :: t3 =>
                  if isDigit e then
                    let ii := (10 * digitVal d + digitVal e)%nat in
                    if ((1 <=? ii) && (ii <=? m))%nat then
                      nth (ii - 1) captures []
                        ++ GetSubstitution matched before after captures t3
                    else one tt
                  else one tt
              | [] => one tt
              end
            else
              c :: GetSubstitution matched before after captures t1
        end
  end.

(** [s.replace(pattern, replacement)] with a string [pattern]: only the
    first occurrence is replaced, and the replacement is a template. *)
Definition replaceString (s pattern replacement : str) : str :=
  match indexOf pattern s with
  | None => s
  | Some i =>
      let before := firstn i s in
      let after := skipn (i + length pattern) s in
      before ++ GetSubstitution pattern before after [] replacement ++ after
  end.

End JS.

Import JS.

(* ===================================================================== *)
(** * TextChunker: [splitTextForTTS]                                     *)
(* ===================================================================== *)

Module Chunker.

(** The class [[。！？；.?!;\n]] of sentence terminators. *)
Definition isTerminator (c : char) : bool :=
  existsb (eqc c) [12290; 65281; 65311; 65307; 46; 63; 33; 59; 10]%Z.

(** [text.split(/([。！？；.?!;\n]+)/)]: the pieces between the maximal runs
    of terminators alternate with the runs themselves (the capture group
    keeps them); the list starts and ends with a piece of text, which may
    be empty.  [cur] is the piece being read and [inRun] tells whether it is
    a run of terminators. *)
Fixpoint splitRuns (inRun : bool) (cur : str) (s : str) : list str :=
  match s with
  | [] => if inRun then [cur; []] else [cur]
  | c :: s' =>
      if isTerminator c then
        if inRun then splitRuns true (cur ++ [c]) s'
        else cur :: splitRuns true [c] s'
      else
        if inRun then cur :: splitRuns false [c] s'
        else splitRuns false (cur ++ [c]) s'
  end.

Definition rawParts (text : str) : list str := splitRuns false [] text.

(** [/[。！？；.?!;\n]+/.test(part)] *)
Definition hasTerminator (part : str) : bool := existsb isTerminator part.

(** One turn of the first loop: the state is [(sentences, currentBuffer)]. *)
Definition sentenceStep (st : list str * str) (part : str) : list str * str :=
  let '(sentences, currentBuffer) := st in
  let currentBuffer := currentBuffer ++ part in
  if hasTerminator part then (sentences ++ [currentBuffer], [])
  else (sentences, currentBuffer).

Definition sentencesOf (text : str) : list str :=
  let '(sentences, currentBuffer) :=
    fold_left sentenceStep (rawParts text) ([], []) in
  if truthy (trim currentBuffer) then sentences ++ [currentBuffer]
  else sentences.

(** One turn of the second loop: the state is [(segments, currentSegment)]. *)
Definition segmentStep (limit : Z) (st : list str * str) (sent : str)
  : list str * str :=
  let '(segments, currentSegment) := st in
  if (Z.of_nat (length currentSegment + length sent) >? limit)%Z then
    if truthy (trim currentSegment) then (segments ++ [currentSegment], sent)
    else (segments, sent)
  else (segments, currentSegment ++ sent).

Definition flushSegment (st : list str * str) : list str :=
  let '(segments, currentSegment) := st in
  if truthy (trim currentSegment) then segments ++ [currentSegment]
  else segments.

Definition splitTextForTTS (text : str) (limit : Z) : list str :=
  flushSegment (fold_left (segmentStep limit) (sentencesOf text) ([], [])).

(** The same second loop, with the current segment kept as the list of the
    sentences it is made of: [concat] of a group is the segment. *)
Definition groupStep (limit : Z) (st : list (list str) * list str) (sent : str)
  : list (list str) * list str :=
  let '(groups, cur) := st in
  if (Z.of_nat (length (concat cur) + length sent) >? limit)%Z then
    if truthy (trim (concat cur)) then (groups ++ [cur], [sent])
    else (groups, [sent])
  else (groups, cur ++ [sent]).

Definition flushGroup (st : list (list str) * list str) : list (list str) :=
  let '(groups, cur) := st in
  if truthy (trim (concat cur)) then groups ++ [cur] else groups.

Definition segmentGroups (text : str) (limit : Z) : list (list str) :=
  flushGroup (fold_left (groupStep limit) (sentencesOf text) ([], [])).

End Chunker.


(* ===================================================================== *)
(** * Errors                                                             *)
(* ===================================================================== *)

Module Effects.

(** What a call can throw. *)
Inductive Error :=
| UpstreamFailure     (* a collaborator call rejects *)
| MalformedPayload    (* [JSON.parse] or [atob] throws *)
| AnalysisFailed.     (* [Error("Failed to analyze image locations")] *)

(** A computation that returns ([inr]) or throws ([inl]). *)
Abbreviation Js := (sum Error).

End Effects.

(* ===================================================================== *)
(** * SnippetAnchor: the regular expression and the ladder               *)
(* ===================================================================== *)

Module Anchor.

Definition lt : char := 60%Z.
Definition closeP : str := lit "</p>".
Definition quote : str := [34%Z].
Definition nl : str := [10%Z].

(** The figure fragment built around the image payload (the template
    literal [imgTag] of the source, line breaks and indentation included). *)
Definition imgTag (base64Image : str) : str :=
  nl ++ lit "             <figure style=" ++ quote
     ++ lit "margin: 20px 0; text-align: center;" ++ quote ++ lit ">"
  ++ nl ++ lit "               <img src=" ++ quote
     ++ lit "data:image/jpeg;base64," ++ base64Image ++ quote
     ++ lit " style=" ++ quote
     ++ lit "display: block; width: 100%; border-radius: 8px; box-shadow: 0 4px 6px rgba(0,0,0,0.1); margin: 0 auto;"
     ++ quote ++ lit " alt=" ++ quote ++ lit "AI" ++ [25554%Z; 22270%Z]
     ++ quote ++ lit " />"
  ++ nl ++ lit "             </figure>"
  ++ nl ++ lit "           ".

Section Ladder.

(** The regular expression is built with the flag [i] and without [u]:
    two code units match when their canonical forms are equal.  The
    canonical form of an ASCII code unit is its ASCII upper case.  For the
    others it comes from the Unicode case tables, which are not part of
    the repository: [simpleUpper] stands for them (the upper case of a
    code unit when it is a single code unit, the code unit itself
    otherwise).  A code unit from 128 on never takes an ASCII form. *)
Variable simpleUpper : char -> char.

Definition asciiUpper (c : char) : char :=
  if ((97 <=? c) && (c <=? 122))%Z then (c - 32)%Z else c.

Definition Canonicalize (c : char) : char :=
  if (c <? 128)%Z then asciiUpper c
  else
    let cu := simpleUpper c in
    if (cu <? 128)%Z then c else cu.

Definition eqCI (a b : char) : bool := eqc (Canonicalize a) (Canonicalize b).

(** A literal pattern read at the head of [s]; the rest of [s] behind it. *)
Fixpoint stripCI (p s : str) : option str :=
  match p, s with
  | [], _ => Some s
  | _ :: _, [] => None
  | x :: p', y :: s' => if eqCI x y then stripCI p' s' else None
  end.

(** The class [[^<]]. *)
Definition notLt (c : char) : bool := negb (eqCI lt c).

(** [[^<]*] followed by the continuation [k]: greedy, giving code units
    back one at a time when what follows fails. *)
Fixpoint starNotLt (k : str -> option str) (s : str) : option str :=
  match s with
  | [] => k []
  | c :: s' =>
      if notLt c then
        match starNotLt k s' with
        | Some rest => Some rest
        | None => k s
        end
      else k s
  end.

(** [(snippet[^<]*</p>)] read at the head of [s]; the snippet is escaped
    in the source, so it is a literal. *)
Definition paraMatchAt (snippet s : str) : option str :=
  match stripCI snippet s with
  | Some s1 => starNotLt (stripCI closeP) s1
  | None => None
  end.

(** The leftmost match in [s]: what is in front of it, the match, and
    what is behind it. *)
Fixpoint paraExec (snippet s : str) : option (str * str * str) :=
  match paraMatchAt snippet s with
  | Some rest => Some ([], firstn (length s - length rest) s, rest)
  | None =>
      match s with
      | [] => None
      | c :: s' =>
          match paraExec snippet s' with
          | Some (b, m, a) => Some (c :: b, m, a)
          | None => None
          end
      end
  end.

(** [regex.test(html)] *)
Definition regexTest (snippet html : str) : bool :=
  match paraExec snippet html with Some _ => true | None => false end.

(** [html.replace(regex, template)]: the expression has one group, the
    whole match. *)
Definition regexReplace (snippet html template : str) : str :=
  match paraExec snippet html with
  | Some (b, m, a) => b ++ GetSubstitution m b a [m] template ++ a
  | None => html
  end.

(** The insertion of [imgTag] for a plan that is not the cover and has the
    trimmed snippet [snippet]. *)
Definition insertInline (updatedHtml snippet imgTag : str) : str :=
  if regexTest snippet updatedHtml then
    regexReplace snippet updatedHtml (lit "$1" ++ imgTag)
  else if includes updatedHtml snippet then
    replaceString updatedHtml snippet (snippet ++ imgTag)
  else
    let shortSnippet := substring0 15 snippet in
    if (10 <? length shortSnippet) && includes updatedHtml shortSnippet then
      replaceString updatedHtml shortSnippet (shortSnippet ++ imgTag)
    else updatedHtml.

(** Which rung of the ladder the insertion above takes. *)
Inductive Rung := ParagraphBounded | BareSubstring | TruncatedPrefix | NotFound.

Definition locate (updatedHtml snippet : str) : Rung :=
  if regexTest snippet updatedHtml then ParagraphBounded
  else if includes updatedHtml snippet then BareSubstring
  else
    let shortSnippet := substring0 15 snippet in
    if (10 <? length shortSnippet) && includes updatedHtml shortSnippet
    then TruncatedPrefix
    else NotFound.

End Ladder.

End Anchor.

(* ===================================================================== *)
(** * IllustrationPlanner: [addIllustrationsToArticle]                   *)
(* ===================================================================== *)

Module Planner.
Import MonadNotation.
Local Open Scope monad_scope.
Import Effects.

Record PlacementPlan := {
  isCover : bool;
  contextSnippet : option str;
  imagePrompt : str
}.

(** The collaborators.  The planner stands for the analysis request and
    [JSON.parse]: it throws, or gives a falsy value ([None]), or the array
    of plans the response schema asks for.  It receives the article and the
    number of images, which the source only writes into the prompt.  The
    painter stands for one image request, for the plan at a given position:
    it throws, or gives the payload of the first part that has inline data
    ([None] when there is none). *)
Definition PlannerT := str -> Z -> Js (option (list PlacementPlan)).
Definition PainterT := nat -> str -> Js (option str).

Section Illustrate.
Variable simpleUpper : char -> char.
Variable planner : PlannerT.
Variable painter : PainterT.

(** The body of the [try] of one turn of the loop, after the image call. *)
Definition placeImage (updatedHtml : str) (plan : PlacementPlan)
    (base64Image : option str) : str :=
  match base64Image with
  | Some data =>
      if truthy data then
        let imgTag := Anchor.imgTag data in
        if isCover plan then imgTag ++ updatedHtml
        else
          match contextSnippet plan with
          | Some s =>
              if truthy s then
                Anchor.insertInline simpleUpper updatedHtml (trim s) imgTag
              else updatedHtml
          | None => updatedHtml
          end
      else updatedHtml
  | None => updatedHtml
  end.

(** One turn of the loop: [try { ... } catch (imgError) { log }]. *)
Definition planStep (updatedHtml : str) (ip : nat * PlacementPlan) : str :=
  let '(i, plan) := ip in
  match
    catch (base64Image <- painter i (imagePrompt plan) ;;
           ret (placeImage updatedHtml plan base64Image))
          (fun _ : Error => ret updatedHtml)
  with
  | inr html => html
  | inl _ => updatedHtml
  end.

Definition indexed (plans : list PlacementPlan) : list (nat * PlacementPlan) :=
  combine (seq 0 (length plans)) plans.

Definition addIllustrationsToArticle (articleHtml : str) (imageCount : Z)
  : Js str :=
  catch
    (plans <- planner articleHtml imageCount ;;
     match plans with
     | None | Some [] => raise AnalysisFailed
     | Some plans => ret (fold_left planStep (indexed plans) articleHtml)
     end)
    (fun error : Error => raise error).

(** The record of one turn: where the figure went, if anywhere. *)
Inductive InsertionResult :=
| Inserted (at_ : option Anchor.Rung)    (* [None]: the cover, prepended *)
| Skipped.

Definition planResult (updatedHtml : str) (ip : nat * PlacementPlan)
  : InsertionResult :=
  let '(i, plan) := ip in
  match painter i (imagePrompt plan) with
  | inr (Some data) =>
      if truthy data then
        if isCover plan then Inserted None
        else
          match contextSnippet plan with
          | Some s =>
              if truthy s then
                match Anchor.locate simpleUpper updatedHtml (trim s) with
                | Anchor.NotFound => Skipped
                | r => Inserted (Some r)
                end
              else Skipped
          | None => Skipped
          end
      else Skipped
  | _ => Skipped
  end.

(** The records of all the turns, each on the document the turns before
    it have left. *)
Fixpoint insertionResults (updatedHtml : str) (ips : list (nat * PlacementPlan))
  : list InsertionResult :=
  match ips with
  | [] => []
  | ip :: rest =>
      planResult updatedHtml ip
        :: insertionResults (planStep updatedHtml ip) rest
  end.

Definition isInserted (r : InsertionResult) : bool :=
  match r with Inserted _ => true | Skipped => false end.

Definition placedImages (articleHtml : str) (plans : list PlacementPlan) : nat :=
  length (filter isInserted (insertionResults articleHtml (indexed plans))).

End Illustrate.

End Planner.

(* ===================================================================== *)
(** * NarrationPipeline: [pcmToWav] and [generateSpeech]                 *)
(* ===================================================================== *)

Module Narration.
Import MonadNotation.
Local Open Scope monad_scope.
Import Effects.

Definition byte := Z.

(** [l] with the element at [i] set to [v]; nothing changes out of range
    (the writes of the source are all in range). *)
Fixpoint setAt {A : Type} (l : list A) (i : nat) (v : A) : list A :=
  match l, i with
  | [], _ => []
  | _ :: l', O => v :: l'
  | x :: l', S i' => x :: setAt l' i' v
  end.

(** [view.setUint8(offset, value)] *)
Definition setUint8 (buf : list byte) (offset : nat) (value : Z) : list byte :=
  setAt buf offset (value mod 256)%Z.

(** [view.setUint16(offset, value, true)], little endian *)
Definition setUint16 (buf : list byte) (offset : nat) (value : Z) : list byte :=
  setUint8 (setUint8 buf offset value) (offset + 1) (value / 256)%Z.

(** [view.setUint32(offset, value, true)], little endian *)
Definition setUint32 (buf : list byte) (offset : nat) (value : Z) : list byte :=
  setUint16 (setUint16 buf offset value) (offset + 2) (value / 65536)%Z.

(** [writeString(view, offset, string)] *)
Fixpoint writeString (buf : list byte) (offset : nat) (s : str) : list byte :=
  match s with
  | [] => buf
  | c :: s' => writeString (setUint8 buf offset c) (offset + 1) s'
  end.

(** [wavBuffer.set(pcmData, offset)] *)
Fixpoint setBytes (buf : list byte) (offset : nat) (data : list byte)
  : list byte :=
  match data with
  | [] => buf
  | b :: data' => setBytes (setAt buf offset b) (offset + 1) data'
  end.

Definition pcmToWav (pcmData : list byte)
    (sampleRate numChannels bitsPerSample : Z) : list byte :=
  let headerLength := 44 in
  let dataLength := length pcmData in
  let fileSize := headerLength + dataLength in
  let view := repeat 0%Z fileSize in
  let view := writeString view 0 (lit "RIFF") in
  let view := setUint32 view 4 (Z.of_nat fileSize - 8) in
  let view := writeString view 8 (lit "WAVE") in
  let view := writeString view 12 (lit "fmt ") in
  let view := setUint32 view 16 16 in
  let view := setUint16 view 20 1 in
  let view := setUint16 view 22 numChannels in
  let view := setUint32 view 24 sampleRate in
  let view :=
    setUint32 view 28 (sampleRate * numChannels * bitsPerSample / 8) in
  let view := setUint16 view 32 (numChannels * bitsPerSample / 8) in
  let view := setUint16 view 34 bitsPerSample in
  let view := writeString view 36 (lit "data") in
  let view := setUint32 view 40 (Z.of_nat dataLength) in
  setBytes view 44 pcmData.

(** An audio artifact: the bytes of a [Blob] of type [audio/wav]. *)
Definition Blob := list byte.

(** The collaborators.  The speaker stands for the speech request for the
    segment at a given position: it throws, or gives the payload
    [candidates[0].content.parts[0].inlineData.data] ([None] when a link of
    the chain is missing).  [atob] is the decoder of the platform: the bytes
    of the payload, or [None] when it throws. *)
Definition SpeakerT := nat -> str -> Js (option str).
Definition AtobT := str -> option (list byte).

Section Speech.
Variable speaker : SpeakerT.
Variable atob : AtobT.

(** The body of the [try] of one segment. *)
Definition synthesize (index : nat) (segmentText : str) : Js (option Blob) :=
  if negb (truthy (trim segmentText)) then ret None
  else
    base64Audio <- speaker index segmentText ;;
    match base64Audio with
    | None => ret None
    | Some base64Audio =>
        if negb (truthy base64Audio) then ret None
        else
          match atob base64Audio with
          | None => raise MalformedPayload
          | Some binaryString =>
              let bytes := map (fun c => c mod 256)%Z binaryString in
              ret (Some (pcmToWav bytes 24000 1 16))
          end
    end.

(** One promise of [segmentPromises]: the failure boundary of a segment
    turns every error into [null]. *)
Definition segmentPromise (ip : nat * str) : Js (option Blob) :=
  catch (synthesize (fst ip) (snd ip)) (fun _ : Error => ret None).

(** [Promise.all(promises)] under a schedule.  [order] lists the
    positions of the promises in the order in which they settle.  A
    fulfilled promise puts its value in the slot of its position; the
    first promise that settles rejected rejects the whole.  When every
    slot is filled the result is the array of the values, in the order of
    the promises; until then the result is pending ([None]). *)
Fixpoint settle {A : Type} (promises : list (Js A)) (slots : list (option A))
    (order : list nat) : Js (list (option A)) :=
  match order with
  | [] => inr slots
  | i :: order' =>
      match nth_error promises i with
      | Some (inl e) => inl e
      | Some (inr v) => settle promises (setAt slots i (Some v)) order'
      | None => settle promises slots order'
      end
  end.

Fixpoint allFilled {A : Type} (slots : list (option A)) : option (list A) :=
  match slots with
  | [] => Some []
  | None :: _ => None
  | Some v :: slots' => option_map (cons v) (allFilled slots')
  end.

Definition promiseAll {A : Type} (promises : list (Js A)) (order : list nat)
  : Js (option (list A)) :=
  slots <- settle promises (repeat None (length promises)) order ;;
  ret (allFilled slots).

Definition enumerate (segments : list str) : list (nat * str) :=
  combine (seq 0 (length segments)) segments.

(** [results.forEach(res => { if (res) blobs.push(res) })] *)
Definition collect (results : list (option Blob)) : list Blob :=
  flat_map (fun res => match res with Some b => [b] | None => [] end) results.

(** [generateSpeech(text)], under the schedule [order] of the segment
    promises.  [inr None] stands for a call that is still waiting. *)
Definition generateSpeech (order : list nat) (text : str)
  : Js (option (list Blob)) :=
  catch
    (let segments := Chunker.splitTextForTTS text 300 in
     let segmentPromises := map segmentPromise (enumerate segments) in
     results <- promiseAll segmentPromises order ;;
     ret (option_map collect results))
    (fun _ : Error => ret (Some [])).

(** The artifact of the segment at a position, when its call succeeds. *)
Definition artifact (ip : nat * str) : option Blob :=
  match speaker (fst ip) (snd ip) with
  | inr (Some base64Audio) =>
      if truthy (trim (snd ip)) && truthy base64Audio then
        option_map (fun binaryString =>
                      pcmToWav (map (fun c => c mod 256)%Z binaryString)
                        24000 1 16)
                   (atob base64Audio)
      else None
  | _ => None
  end.

End Speech.

End Narration.

(* ===================================================================== *)
(** * WeChatFormatter: [formatHtmlForWeChat]                             *)
(* ===================================================================== *)

Module WeChat.

(** The inline style of an element: its declarations, in order, each a
    property and the value as the source writes it. *)
Definition Style := list (str * str).

(** The document: text nodes, and elements with a tag name, attributes
    (the [style] attribute apart, kept as the declarations above) and
    children. *)
#[warnings="-register-all"]
Inductive node :=
| Text (data : str)
| Element (tagName : str) (attributes : list (str * str)) (style : Style)
          (children : list node).

Definition decl (property value : String.string) : str * str :=
  (lit property, lit value).

(** [style.getPropertyValue(property)] *)
Fixpoint getPropertyValue (style : Style) (property : str) : option str :=
  match style with
  | [] => None
  | (p, v) :: style' =>
      if eqs p property then Some v else getPropertyValue style' property
  end.

(** [style.setProperty(property, value)]: the declaration is updated where
    it stands, or added at the end. *)
Fixpoint setProperty (style : Style) (property value : str) : Style :=
  match style with
  | [] => [(property, value)]
  | (p, v) :: style' =>
      if eqs p property then (p, value) :: style'
      else (p, v) :: setProperty style' property value
  end.

(** [element.removeAttribute(name)] *)
Definition removeAttribute (attributes : list (str * str)) (name : str)
  : list (str * str) :=
  filter (fun a => negb (eqs (fst a) name)) attributes.

(** [toLowerCase] on a tag name.  Only the ASCII letters are changed: no
    other code unit has a lower case that would make a name equal to one
    of the tags of the rules when it is not so already. *)
Definition toLowerCase (s : str) : str :=
  map (fun c => if ((65 <=? c) && (c <=? 90))%Z then (c + 32)%Z else c) s.

(** The texts given to [cssText], as declarations. *)
Definition wrapperCss : Style :=
  [ decl "font-family"
      "-apple-system, BlinkMacSystemFont, 'Helvetica Neue', 'PingFang SC', 'Hiragino Sans GB', 'Microsoft YaHei UI', 'Microsoft YaHei', Arial, sans-serif";
    decl "font-size" "16px";
    decl "line-height" "1.75";
    decl "color" "#333333";
    decl "letter-spacing" "0.034em";
    decl "text-align" "justify";
    decl "word-break" "break-all";
    decl "box-sizing" "border-box";
    decl "margin" "0";
    decl "padding" "10px" ].

Definition headingCss (marginTop marginBottom : String.string) : Style :=
  [ decl "font-size" "17px";
    decl "font-weight" "bold";
    decl "margin-top" marginTop;
    decl "margin-bottom" marginBottom;
    decl "color" "#333333";
    decl "text-align" "center !important";
    decl "line-height" "1.4";
    decl "box-sizing" "border-box";
    decl "display" "block";
    decl "width" "100%";
    decl "margin-left" "auto";
    decl "margin-right" "auto" ].

Definition h2Css : Style := headingCss "40px" "24px".
Definition h3Css : Style := headingCss "30px" "20px".

Definition pCss : Style :=
  [ decl "margin" "0 0 24px 0";
    decl "font-size" "16px";
    decl "line-height" "1.8";
    decl "color" "#333333";
    decl "text-align" "justify";
    decl "box-sizing" "border-box" ].

Definition imgCss : Style :=
  [ decl "display" "block";
    decl "margin" "0 auto";
    decl "max-width" "100% !important";
    decl "height" "auto !important";
    decl "border-radius" "6px";
    decl "box-sizing" "border-box";
    decl "box-shadow" "0 4px 12px rgba(0,0,0,0.08)";
    decl "visibility" "visible !important";
    decl "opacity" "1 !important" ].

Definition figureCss : Style :=
  [ decl "margin" "20px 0";
    decl "padding" "0";
    decl "text-align" "center";
    decl "display" "block";
    decl "width" "100%";
    decl "box-sizing" "border-box" ].

Definition strongCss : Style :=
  [ decl "font-weight" "700"; decl "color" "#333333" ].

Definition emCss : Style :=
  [ decl "font-style" "italic";
    decl "color" "#ff5f00";
    decl "font-weight" "bold";
    decl "padding" "0 2px" ].

Definition uCss : Style :=
  [ decl "text-decoration" "underline";
    decl "text-decoration-color" "#ff5f00";
    decl "text-decoration-thickness" "1.5px";
    decl "text-underline-offset" "4px" ].

Definition listCss : Style :=
  [ decl "margin" "0 0 20px 20px"; decl "padding" "0" ].

Definition liCss : Style := [ decl "margin-bottom" "8px" ].

Definition boxSizing : str := lit "box-sizing".
Definition borderBox : str := lit "border-box".

Definition isTag (tagName : str) (name : String.string) : bool :=
  eqs tagName (lit name).

(** [processNode(element)]: the new attributes and style of the element,
    and the style it gives to its parent, if any (an image inside a
    [figure] sets the style of the figure).  [parentTagName] is the tag
    name of [element.parentElement]. *)
Definition processNode (parentTagName : option str) (elementTagName : str)
    (attributes : list (str * str)) (style : Style)
  : list (str * str) * Style * option Style :=
  let tagName := toLowerCase elementTagName in
  (* Ensure box-sizing everywhere *)
  let style := setProperty style boxSizing borderBox in
  if isTag tagName "h2" then (attributes, h2Css, None)
  else if isTag tagName "h3" then (attributes, h3Css, None)
  else if isTag tagName "p" then (attributes, pCss, None)
  else if isTag tagName "img" then
    let attributes :=
      removeAttribute (removeAttribute attributes (lit "width"))
        (lit "height") in
    let figure :=
      match parentTagName with
      | Some parent =>
          if isTag (toLowerCase parent) "figure" then Some figureCss else None
      | None => None
      end in
    (attributes, imgCss, figure)
  else if isTag tagName "strong" || isTag tagName "b" then
    (attributes, strongCss, None)
  else if isTag tagName "em" then (attributes, emCss, None)
  else if isTag tagName "u" then (attributes, uCss, None)
  else if isTag tagName "ul" || isTag tagName "ol" then
    (attributes, listCss, None)
  else if isTag tagName "li" then (attributes, liCss, None)
  else (attributes, style, None).

(** [walk(root)]: the element is processed, then its element children, in
    order; a child may set the style of the element on the way.  The
    result is the new node and the style for the parent of [root], if any.
    Text nodes are not among [root.children]: they stay as they are. *)
Fixpoint walk (parentTagName : option str) (root : node)
  : node * option Style :=
  match root with
  | Text _ => (root, None)
  | Element tagName attributes style children =>
      let '(attributes, style, toParent) :=
        processNode parentTagName tagName attributes style in
      let fix walkChildren (children : list node) (style : Style)
        : list node * Style :=
        match children with
        | [] => ([], style)
        | child :: rest =>
            let '(child, fromChild) := walk (Some tagName) child in
            let style :=
              match fromChild with Some s => s | None => style end in
            let '(rest, style) := walkChildren rest style in
            (child :: rest, style)
        end in
      let '(children, style) := walkChildren children style in
      (Element tagName attributes style children, toParent)
  end.

(** The loop over the children of an element with the tag [tagName]. *)
Fixpoint walkChildren (tagName : str) (children : list node) (style : Style)
  : list node * Style :=
  match children with
  | [] => ([], style)
  | child :: rest =>
      let '(child, fromChild) := walk (Some tagName) child in
      let style := match fromChild with Some s => s | None => style end in
      let '(rest, style) := walkChildren tagName rest style in
      (child :: rest, style)
  end.

Definition dataTool : str * str := (lit "data-tool", lit "AIWriter").

(** The container: [doc.createElement('section')] with the base style and
    the marker, holding the children of the body. *)
Definition wrapper (bodyChildren : list node) : node :=
  Element (lit "section") [dataTool] wrapperCss bodyChildren.

(** The body after [walk(wrapper)]: its one child, the container. *)
Definition formatDom (bodyChildren : list node) : node :=
  fst (walk (Some (lit "body")) (wrapper bodyChildren)).

(** [s.replace(/pattern/g, replacement)] for a literal pattern and a
    replacement without [$]: every occurrence, from left to right.  [skip]
    counts the code units of an occurrence that are still to be passed. *)
Fixpoint replaceAllFrom (skip : nat) (pattern replacement s : str) : str :=
  match s with
  | [] => []
  | c :: s' =>
      match skip with
      | S skip' => replaceAllFrom skip' pattern replacement s'
      | O =>
          match pattern, stripPrefix pattern s with
          | _ :: _, Some _ =>
              replacement
                ++ replaceAllFrom (length pattern - 1) pattern replacement s'
          | _, _ => c :: replaceAllFrom 0 pattern replacement s'
          end
      end
  end.

Definition replaceAll (pattern replacement s : str) : str :=
  replaceAllFrom 0 pattern replacement s.

Section Platform.
(** The parser and the serializer of the platform:
    [new DOMParser().parseFromString(html, 'text/html')] followed by the
    children of [doc.body], and [innerHTML] of a list of nodes. *)
Variable parseBody : str -> list node.
Variable innerHTML : list node -> str.

Definition formatHtmlForWeChat (html : str) : str :=
  let body := [formatDom (parseBody html)] in
  let formattedHtml := innerHTML body in
  replaceAll (lit "</figure>") (lit "</p>")
    (replaceAll (lit "<figure") (lit "<p") formattedHtml).
End Platform.

(** The elements of a tree, the root first. *)
Fixpoint elementsOf (n : node) : list node :=
  match n with
  | Text _ => []
  | Element _ _ _ children => n :: flat_map elementsOf children
  end.

Definition styleOf (n : node) : Style :=
  match n with
  | Text _ => []
  | Element _ _ style _ => style
  end.

(** The element carries the reset [box-sizing: border-box]. *)
Definition carriesReset (n : node) : bool :=
  match getPropertyValue (styleOf n) boxSizing with
  | Some v => eqs v borderBox
  | None => false
  end.

(** The number of elements of a tree. *)
Fixpoint countElements (n : node) : nat :=
  match n with
  | Text _ => 0
  | Element _ _ _ children =>
      S (fold_right (fun child k => countElements child + k) 0 children)
  end.

End WeChat.

(* ===================================================================== *)
(** * The text services: [generateArticle] and [rewriteTextSegment]      *)
(* ===================================================================== *)

Module Article.
Import MonadNotation.
Local Open Scope monad_scope.
Import Effects.

Definition fence : str := lit "```".
Definition fenceHtml : str := lit "```html".

(** [text.replace(/^opening\s*/, '')]: without the flag [m] the expression
    matches at the start of the text only; [\s] is the white space of
    [trim]. *)
Definition dropOpening (opening text : str) : str :=
  match stripPrefix opening text with
  | Some rest => trimStart rest
  | None => text
  end.

(** [text.replace(/```$/, '')]: the fence is removed when it is the very
    end of the text. *)
Definition dropClosing (text : str) : str :=
  match stripPrefix (rev fence) (rev text) with
  | Some rest => rev rest
  | None => text
  end.

(** The three replacements of [generateArticle], in their order. *)
Definition cleanFences (text : str) : str :=
  dropClosing (dropOpening fence (dropOpening fenceHtml text)).

(** The page returned when the generation fails. *)
Definition failurePage : str :=
  lit "<h1>" ++ [29983; 25104; 22833; 36133]%Z ++ lit "</h1><p>"
  ++ [29983; 25104; 25991; 31456; 26102; 36935; 21040; 38169; 35823; 65292;
      35831; 31245; 21518; 37325; 35797; 12290]%Z
  ++ lit "</p><p>"
  ++ [35831; 26816; 26597; 32593; 32476; 36830; 25509; 25110]%Z
  ++ lit " API " ++ [37197; 39069; 12290]%Z ++ lit "</p>".

(** The collaborators.  The writer stands for the request built from the
    topic and the two sets of instructions: it throws, or gives
    [response.text] ([None] when it is missing).  The rewriter stands for
    the request built from the text, its context and the instruction. *)
Definition WriterT := str -> str -> str -> Js (option str).
Definition RewriterT := str -> str -> option str -> Js (option str).

Definition generateArticle (writer : WriterT)
    (topic titleInstructions articleInstructions : str) : Js str :=
  catch
    (response <- writer topic titleInstructions articleInstructions ;;
     let text := match response with Some t => t | None => [] end in
     ret (cleanFences text))
    (fun _ : Error => ret failurePage).

Definition rewriteTextSegment (rewriter : RewriterT)
    (originalText context : str) (instruction : option str) : Js str :=
  catch
    (response <- rewriter originalText context instruction ;;
     let trimmed := match response with Some t => trim t | None => [] end in
     ret (if truthy trimmed then trimmed else originalText))
    (fun _ : Error => ret originalText).

End Article.

(* ===================================================================== *)
(** * The first version of [addIllustrationsToArticle]                   *)
(* ===================================================================== *)

(** [services/gemini.ts]: no cover, the snippet is not trimmed, and the
    ladder has two rungs.  The plans have a snippet and a prompt; the field
    [isCover] of the record is not read. *)
Module PlannerV1.
Import MonadNotation.
Local Open Scope monad_scope.
Import Effects Planner.

Section Illustrate.
Variable simpleUpper : char -> char.
Variable planner : PlannerT.
Variable painter : PainterT.

(** The insertion behind the paragraph, or behind the snippet itself. *)
Definition insertAfterParagraph (updatedHtml snippet imgTag : str) : str :=
  if Anchor.regexTest simpleUpper snippet updatedHtml then
    Anchor.regexReplace simpleUpper snippet updatedHtml (lit "$1" ++ imgTag)
  else
    replaceString updatedHtml snippet (snippet ++ imgTag).

(** The body of the [try] of one turn, after the image call.  A plan
    without a snippet makes [plan.contextSnippet.replace] throw. *)
Definition placeImage (updatedHtml : str) (plan : PlacementPlan)
    (base64Image : option str) : Js str :=
  match base64Image with
  | Some data =>
      if truthy data then
        match contextSnippet plan with
        | Some snippet =>
            ret (insertAfterParagraph updatedHtml snippet (Anchor.imgTag data))
        | None => raise MalformedPayload
        end
      else ret updatedHtml
  | None => ret updatedHtml
  end.

Definition planStep (updatedHtml : str) (ip : nat * PlacementPlan) : str :=
  let '(i, plan) := ip in
  match
    catch (base64Image <- painter i (imagePrompt plan) ;;
           placeImage updatedHtml plan base64Image)
          (fun _ : Error => ret updatedHtml)
  with
  | inr html => html
  | inl _ => updatedHtml
  end.

(** The prompt asks for two places. *)
Definition addIllustrationsToArticle (articleHtml : str) : Js str :=
  catch
    (plans <- planner articleHtml 2%Z ;;
     match plans with
     | None | Some [] => raise AnalysisFailed
     | Some plans => ret (fold_left planStep (indexed plans) articleHtml)
     end)
    (fun error : Error => raise error).

End Illustrate.
End PlannerV1.

(* ===================================================================== *)
(** * The first version of [formatHtmlForWeChat]                         *)
(* ===================================================================== *)

(** [App.tsx] of the first version: the opening tags that have no
    attribute get a [style] attribute, by replacements on the text. *)
Module Legacy.

Definition bare (tag : String.string) : str := lit "<" ++ lit tag ++ lit ">".

Definition styled (tag css : String.string) : str :=
  lit "<" ++ lit tag ++ lit " style=" ++ Anchor.quote ++ lit css
  ++ Anchor.quote ++ lit ">".

(** The replacements, in the order of the source: the expression (a
    literal, with the flag [g]) and the replacement. *)
Definition rules : list (str * str) :=
  [ (bare "p",
     styled "p" "font-size: 16px; line-height: 1.8; margin-bottom: 20px; text-align: justify; color: #333;");
    (bare "h2",
     styled "h2" "font-size: 18px; font-weight: bold; margin-top: 30px; margin-bottom: 15px; color: #07c160; padding-left: 10px; border-left: 4px solid #07c160; line-height: 1.4;");
    (bare "h3",
     styled "h3" "font-size: 17px; font-weight: bold; margin-top: 25px; margin-bottom: 12px; color: #333;");
    (bare "ul",
     styled "ul" "margin-bottom: 20px; padding-left: 20px; list-style-type: disc; color: #555;");
    (bare "ol",
     styled "ol" "margin-bottom: 20px; padding-left: 20px; list-style-type: decimal; color: #555;");
    (bare "li", styled "li" "margin-bottom: 8px; line-height: 1.6;");
    (bare "strong", styled "strong" "color: #07c160; font-weight: bold;");
    (bare "b", styled "strong" "color: #07c160; font-weight: bold;");
    (bare "blockquote",
     styled "blockquote" "background-color: #f7f7f7; border-left: 4px solid #d1d5db; padding: 16px; margin: 20px 0; color: #666; font-size: 15px; border-radius: 4px;") ].

Definition applyRule (formatted : str) (rule : str * str) : str :=
  WeChat.replaceAll (fst rule) (snd rule) formatted.

Definition formatHtmlForWeChat (html : str) : str :=
  fold_left applyRule rules html.

End Legacy.

(* ===================================================================== *)
(** * The text given to the detection dialog                             *)
(* ===================================================================== *)

Module Detection.

Definition gt : char := 62%Z.

(** [[^>]*>] read at the head of [s], greedy: the rest behind the first
    [>], if there is one. *)
Fixpoint untilGt (s : str) : option str :=
  match s with
  | [] => None
  | c :: s' =>
      if eqc c gt then Some s'
      else
        match untilGt s' with
        | Some rest => Some rest
        | None => None
        end
  end.

(** [<[^>]+>] read at the head of [s]. *)
Definition tagAt (s : str) : option str :=
  match s with
  | c :: d :: s' =>
      if eqc c Anchor.lt && negb (eqc d gt) then untilGt s' else None
  | _ => None
  end.

(** [s.replace(/<[^>]+>/g, '')]; [skip] counts the code units of a tag
    that are still to be passed. *)
Fixpoint stripTagsFrom (skip : nat) (s : str) : str :=
  match s with
  | [] => []
  | c :: s' =>
      match skip with
      | S skip' => stripTagsFrom skip' s'
      | O =>
          match tagAt s with
          | Some rest => stripTagsFrom (length s' - length rest) s'
          | None => c :: stripTagsFrom 0 s'
          end
      end
  end.

Definition stripTags (s : str) : str := stripTagsFrom 0 s.

End Detection.

(* ===================================================================== *)
(** * Properties of the chunker                                          *)
(* ===================================================================== *)

Section FoldInvariant.
Variables (A B : Type) (f : A -> B -> A) (P : A -> list B -> Prop).
Hypothesis step : forall a done b, P a done -> P (f a b) (done ++ [b]).

Lemma fold_left_invariant_from l :
  forall a done, P a done -> P (fold_left f l a) (done ++ l).
Proof.
  induction l as [|b l IH]; intros a done Ha; simpl.
  - now rewrite app_nil_r.
  - replace (done ++ b :: l) with ((done ++ [b]) ++ l)
      by now rewrite <- app_assoc.
    apply IH, step, Ha.
Qed.

Lemma fold_left_invariant a l : P a [] -> P (fold_left f l a) l.
Proof. intros H. apply (fold_left_invariant_from l a [] H). Qed.
End FoldInvariant.

Module ChunkerFacts.
Import Chunker.

Lemma concat_snoc (A : Type) (l : list (list A)) (x : list A) :
  concat (l ++ [x]) = concat l ++ x.
Proof. now rewrite concat_app; simpl; rewrite app_nil_r. Qed.

(** Splitting loses nothing: the raw parts, put together, are the text. *)
Lemma concat_splitRuns s : forall inRun cur,
  concat (splitRuns inRun cur s) = cur ++ s.
Proof.
  induction s as [|c s IH]; intros inRun cur; simpl.
  - destruct inRun; simpl; now rewrite ?app_nil_r.
  - destruct (isTerminator c), inRun; simpl; rewrite IH;
      now rewrite <- ?app_assoc.
Qed.

Lemma concat_rawParts text : concat (rawParts text) = text.
Proof. apply concat_splitRuns. Qed.

(** The first loop keeps every part, in the sentences or in the buffer. *)
Lemma sentence_loop_keeps parts :
  let st := fold_left sentenceStep parts ([], []) in
  concat (fst st) ++ snd st = concat parts.
Proof.
  apply (fold_left_invariant _ _ sentenceStep
           (fun st done => concat (fst st) ++ snd st = concat done)).
  - intros [ss buf] done part H; simpl in *.
    rewrite concat_snoc, <- H.
    destruct (hasTerminator part); simpl.
    + now rewrite concat_snoc, app_nil_r, app_assoc.
    + now rewrite app_assoc.
  - reflexivity.
Qed.

(** The sentences are the text, but for a blank tail that is dropped. *)
Lemma sentencesOf_text text :
  exists tail, concat (sentencesOf text) ++ tail = text
               /\ truthy (trim tail) = false.
Proof.
  unfold sentencesOf.
  pose proof (sentence_loop_keeps (rawParts text)) as H.
  rewrite concat_rawParts in H.
  destruct (fold_left sentenceStep (rawParts text) ([], [])) as [ss buf].
  simpl in H.
  destruct (truthy (trim buf)) eqn:E.
  - exists []. now rewrite concat_snoc, app_nil_r.
  - now exists buf.
Qed.

(** A text cut in spans, each one kept or dropped. *)
Definition wholeText (spans : list (str * bool)) : str :=
  concat (map fst spans).
Definition keptText (spans : list (str * bool)) : str :=
  concat (map fst (filter snd spans)).
Definition droppedBlank (spans : list (str * bool)) : Prop :=
  Forall (fun p => snd p = false -> truthy (trim (fst p)) = false) spans.

Lemma wholeText_snoc spans s b :
  wholeText (spans ++ [(s, b)]) = wholeText spans ++ s.
Proof.
  unfold wholeText. rewrite map_app, concat_app. simpl.
  now rewrite app_nil_r.
Qed.

Lemma keptText_snoc spans s b :
  keptText (spans ++ [(s, b)]) = keptText spans ++ (if b then s else []).
Proof.
  unfold keptText. rewrite filter_app, map_app, concat_app.
  destruct b; simpl; now rewrite !app_nil_r.
Qed.

Lemma droppedBlank_snoc spans s b :
  droppedBlank spans -> (b = false -> truthy (trim s) = false) ->
  droppedBlank (spans ++ [(s, b)]).
Proof.
  intros H Hs. apply Forall_app. split; [exact H|].
  constructor; [exact Hs | constructor].
Qed.

(** The second loop: what was read is cut in spans; the kept ones are the
    segments pushed so far, the current segment is still pending. *)
Lemma segment_loop_spans limit sents :
  let st := fold_left (segmentStep limit) sents ([], []) in
  exists spans,
    wholeText spans ++ snd st = concat sents
    /\ keptText spans = concat (fst st)
    /\ droppedBlank spans.
Proof.
  apply (fold_left_invariant _ _ (segmentStep limit)
           (fun st done => exists spans,
                wholeText spans ++ snd st = concat done
                /\ keptText spans = concat (fst st)
                /\ droppedBlank spans)).
  - intros [segs cur] done sent (spans & Hw & Hk & Hd); simpl in *.
    rewrite concat_snoc, <- Hw.
    destruct (Z.of_nat (length cur + length sent) >? limit)%Z.
    + destruct (truthy (trim cur)) eqn:E; simpl.
      * exists (spans ++ [(cur, true)]).
        rewrite wholeText_snoc, keptText_snoc, concat_snoc, Hk.
        repeat split; auto.
        apply droppedBlank_snoc; [exact Hd | discriminate].
      * exists (spans ++ [(cur, false)]).
        rewrite wholeText_snoc, keptText_snoc, app_nil_r.
        repeat split; auto.
        apply droppedBlank_snoc; auto.
    + exists spans. simpl. rewrite app_assoc. auto.
  - exists []. repeat split; constructor.
Qed.

Lemma segment_loop_nonblank limit sents :
  Forall (fun c => truthy (trim c) = true)
         (fst (fold_left (segmentStep limit) sents ([], []))).
Proof.
  apply (fold_left_invariant _ _ (segmentStep limit)
           (fun st _ => Forall (fun c => truthy (trim c) = true) (fst st))).
  - intros [segs cur] done sent H; simpl in *.
    destruct (Z.of_nat (length cur + length sent) >? limit)%Z; simpl; auto.
    destruct (truthy (trim cur)) eqn:E; simpl; auto.
    apply Forall_app. split; auto.
  - constructor.
Qed.

End ChunkerFacts.

(** C3. For every text and every limit, the chunks of [splitTextForTTS],
    put together in order, are the text from which spans of pure whitespace
    have been removed: the text is cut in spans, the chunks concatenated
    are the kept spans, and every dropped span trims to the empty string.
    And no chunk is empty after trimming. *)
Theorem C3_chunks_reconstruct_text (text : str) (limit : Z) :
  (exists spans : list (str * bool),
      ChunkerFacts.wholeText spans = text
      /\ ChunkerFacts.keptText spans
         = concat (Chunker.splitTextForTTS text limit)
      /\ ChunkerFacts.droppedBlank spans)
  /\ Forall (fun chunk => truthy (trim chunk) = true)
            (Chunker.splitTextForTTS text limit).
Proof.
  unfold Chunker.splitTextForTTS.
  destruct (ChunkerFacts.sentencesOf_text text) as (tail & Htext & Htail).
  pose proof (ChunkerFacts.segment_loop_spans limit (Chunker.sentencesOf text))
    as (spans & Hw & Hk & Hd).
  pose proof (ChunkerFacts.segment_loop_nonblank limit
                (Chunker.sentencesOf text)) as Hn.
  destruct (fold_left (Chunker.segmentStep limit) (Chunker.sentencesOf text)
              ([], [])) as [segs cur].
  simpl in *. split.
  - exists (spans ++ [(cur, truthy (trim cur))] ++ [(tail, false)]).
    rewrite app_assoc.
    rewrite ChunkerFacts.wholeText_snoc, ChunkerFacts.keptText_snoc.
    rewrite ChunkerFacts.wholeText_snoc, ChunkerFacts.keptText_snoc.
    rewrite Hw, Htext, app_nil_r, Hk.
    repeat split.
    + destruct (truthy (trim cur)).
      * now rewrite ChunkerFacts.concat_snoc.
      * now rewrite app_nil_r.
    + apply ChunkerFacts.droppedBlank_snoc; [|auto].
      apply ChunkerFacts.droppedBlank_snoc; auto.
  - destruct (truthy (trim cur)) eqn:E; auto.
    apply Forall_app. split; auto.
Qed.

Module GroupFacts.
Import Chunker.

(** The segment state a group state stands for. *)
Definition segOf (st : list (list str) * list str) : list str * str :=
  (map (@concat char) (fst st), concat (snd st)).

Lemma step_sim limit st sent :
  segmentStep limit (segOf st) sent = segOf (groupStep limit st sent).
Proof.
  destruct st as [groups cur]. unfold segOf, segmentStep, groupStep. simpl.
  destruct (Z.of_nat (length (concat cur) + length sent) >? limit)%Z.
  - destruct (truthy (trim (concat cur))); simpl;
      now rewrite ?map_app, ?app_nil_r.
  - simpl. now rewrite ChunkerFacts.concat_snoc.
Qed.

Lemma loop_sim limit sents : forall st,
  fold_left (segmentStep limit) sents (segOf st)
  = segOf (fold_left (groupStep limit) sents st).
Proof.
  induction sents as [|sent sents IH]; intros st; cbn [fold_left];
    [reflexivity|].
  now rewrite step_sim, IH.
Qed.

Lemma flush_sim st : flushSegment (segOf st) = map (@concat char) (flushGroup st).
Proof.
  destruct st as [groups cur]. unfold segOf, flushSegment, flushGroup. simpl.
  destruct (truthy (trim (concat cur))); [|reflexivity].
  now rewrite map_app.
Qed.

(** The groups are the chunks, sentence by sentence. *)
Lemma segmentGroups_chunks text limit :
  map (@concat char) (segmentGroups text limit) = splitTextForTTS text limit.
Proof.
  unfold segmentGroups, splitTextForTTS.
  rewrite <- flush_sim, <- loop_sim. reflexivity.
Qed.

Lemma flushGroup_In st g :
  In g (flushGroup st) ->
  In g (fst st) \/ (g = snd st /\ truthy (trim (concat g)) = true).
Proof.
  destruct st as [groups cur]. unfold flushGroup. simpl.
  destruct (truthy (trim (concat cur))) eqn:E; [|now left].
  rewrite in_app_iff. simpl. intros [H|[H|[]]]; [now left|].
  subst. now right.
Qed.

(** A group of two sentences or more fits in the limit. *)
Lemma group_loop_bound limit sents :
  let st := fold_left (groupStep limit) sents ([], []) in
  (forall g, In g (fst st) -> 2 <= length g ->
             (Z.of_nat (length (concat g)) <= limit)%Z)
  /\ (2 <= length (snd st) ->
      (Z.of_nat (length (concat (snd st))) <= limit)%Z).
Proof.
  apply (fold_left_invariant _ _ (groupStep limit)
           (fun st _ =>
              (forall g, In g (fst st) -> 2 <= length g ->
                         (Z.of_nat (length (concat g)) <= limit)%Z)
              /\ (2 <= length (snd st) ->
                  (Z.of_nat (length (concat (snd st))) <= limit)%Z))).
  - intros [groups cur] done sent [Hg Hc]; simpl in *.
    destruct (Z.gtb_spec (Z.of_nat (length (concat cur) + length sent)) limit)
      as [Hgt|Hle].
    + destruct (truthy (trim (concat cur))); simpl; split; auto; try lia.
      intros g Hin. apply in_app_iff in Hin. simpl in Hin.
      destruct Hin as [Hin|[<-|[]]]; auto.
    + simpl. split; auto. intros _.
      rewrite ChunkerFacts.concat_snoc, length_app. exact Hle.
  - simpl. split; [intros g []|lia].
Qed.


(** No sentence is the empty string. *)
Lemma sentencesOf_nonempty text :
  Forall (fun s => s <> []) (sentencesOf text).
Proof.
  unfold sentencesOf.
  assert (H : Forall (fun s => s <> [])
                (fst (fold_left sentenceStep (rawParts text) ([], [])))).
  { apply (fold_left_invariant _ _ sentenceStep
             (fun st _ => Forall (fun s : str => s <> []) (fst st))).
    - intros [ss buf] done part H; simpl in *.
      destruct (hasTerminator part) eqn:E; simpl; auto.
      apply Forall_app. split; auto. constructor; [|constructor].
      destruct part; [discriminate|]. now destruct buf.
    - constructor. }
  destruct (fold_left sentenceStep (rawParts text) ([], [])) as [ss buf].
  simpl in H.
  destruct (truthy (trim buf)) eqn:E; auto.
  apply Forall_app. split; auto. constructor; [|constructor].
  intros ->. discriminate.
Qed.

End GroupFacts.

(** ** The sentences of a chunk, read again from the chunk *)

Module ResplitFacts.
Import Chunker.

(** Text without a terminator, and a run of terminators. *)
Definition plain (t : str) : Prop :=
  Forall (fun c => isTerminator c = false) t.
Definition isRun (d : str) : Prop :=
  d <> [] /\ Forall (fun c => isTerminator c = true) d.
Definition startsPlain (r : str) : Prop :=
  match r with
  | [] => True
  | c :: _ => isTerminator c = false
  end.

Lemma startsPlain_prefix x y : startsPlain (x ++ y) -> startsPlain x.
Proof. now destruct x. Qed.

Lemma plain_startsPlain t : plain t -> startsPlain t.
Proof. now destruct 1. Qed.

Lemma splitRuns_plain t : plain t -> forall cur x,
  splitRuns false cur (t ++ x) = splitRuns false (cur ++ t) x.
Proof.
  induction 1 as [|c t Hc _ IH]; intros cur x; simpl.
  - now rewrite app_nil_r.
  - rewrite Hc, IH. now rewrite <- app_assoc.
Qed.

Lemma splitRuns_run d : Forall (fun c => isTerminator c = true) d ->
  forall cur x, splitRuns true cur (d ++ x) = splitRuns true (cur ++ d) x.
Proof.
  induction 1 as [|c d Hc _ IH]; intros cur x; simpl.
  - now rewrite app_nil_r.
  - rewrite Hc, IH. now rewrite <- app_assoc.
Qed.

Lemma splitRuns_after_run cur r :
  startsPlain r -> splitRuns true cur r = cur :: rawParts r.
Proof.
  destruct r as [|c r]; [reflexivity|].
  intros H. unfold rawParts. cbn [splitRuns startsPlain] in *.
  now rewrite H.
Qed.

(** The raw parts of a text that starts with a sentence. *)
Lemma rawParts_sentence t d r :
  plain t -> isRun d -> startsPlain r ->
  rawParts (t ++ d ++ r) = t :: d :: rawParts r.
Proof.
  intros Ht [Hne Hd] Hr. unfold rawParts at 1.
  rewrite (splitRuns_plain _ Ht). simpl.
  destruct Hd as [|c d Hc Hd]; [congruence|]. simpl. rewrite Hc.
  rewrite (splitRuns_run _ Hd). simpl.
  f_equal. now apply splitRuns_after_run.
Qed.

Lemma rawParts_plain t : plain t -> rawParts t = [t].
Proof.
  intros Ht. unfold rawParts.
  rewrite <- (app_nil_r t) at 1. now rewrite (splitRuns_plain _ Ht).
Qed.

Lemma hasTerminator_plain t : plain t -> hasTerminator t = false.
Proof.
  induction 1 as [|c t Hc _ IH]; simpl; [reflexivity|]. now rewrite Hc.
Qed.

Lemma hasTerminator_run d : isRun d -> hasTerminator d = true.
Proof.
  intros [Hne Hd]. destruct Hd as [|c d Hc _]; [congruence|].
  simpl. now rewrite Hc.
Qed.

(** The sentences found so far do not matter to the first loop. *)
Lemma sentence_loop_shift parts : forall acc buf,
  fold_left sentenceStep parts (acc, buf)
  = (acc ++ fst (fold_left sentenceStep parts ([], buf)),
     snd (fold_left sentenceStep parts ([], buf))).
Proof.
  induction parts as [|part parts IH]; intros acc buf; simpl.
  - now rewrite app_nil_r.
  - destruct (hasTerminator part).
    + rewrite (IH (acc ++ [buf ++ part])), (IH [buf ++ part]).
      simpl. now rewrite <- app_assoc.
    + apply IH.
Qed.

Lemma step_plain acc buf t :
  plain t -> sentenceStep (acc, buf) t = (acc, buf ++ t).
Proof.
  intros Ht. unfold sentenceStep. now rewrite (hasTerminator_plain _ Ht).
Qed.

Lemma step_run acc buf d :
  isRun d -> sentenceStep (acc, buf) d = (acc ++ [buf ++ d], []).
Proof.
  intros Hd. unfold sentenceStep. now rewrite (hasTerminator_run _ Hd).
Qed.

Lemma sentencesOf_cons t d r :
  plain t -> isRun d -> startsPlain r ->
  sentencesOf (t ++ d ++ r) = (t ++ d) :: sentencesOf r.
Proof.
  intros Ht Hd Hr. unfold sentencesOf.
  rewrite (rawParts_sentence _ _ _ Ht Hd Hr). cbn [fold_left].
  rewrite (step_plain _ _ _ Ht), (step_run _ _ _ Hd).
  rewrite sentence_loop_shift.
  unfold str in *.
  match goal with
  | |- context [snd ?loop] => destruct loop as [ss buf]
  end.
  simpl. now destruct (truthy (trim buf)).
Qed.

Lemma sentencesOf_plain t :
  plain t -> sentencesOf t = if truthy (trim t) then [t] else [].
Proof.
  intros Ht. unfold sentencesOf. rewrite (rawParts_plain _ Ht).
  cbn [fold_left]. now rewrite (step_plain _ _ _ Ht).
Qed.

(** A list of sentences as the first loop makes them: each one is text
    and a run of terminators, and what follows a run is text; the last one
    may be text alone, not blank. *)
Inductive wellFormed : list str -> Prop :=
| wf_nil : wellFormed []
| wf_last s : plain s -> truthy (trim s) = true -> wellFormed [s]
| wf_cons t d rest :
    plain t -> isRun d -> startsPlain (concat rest) -> wellFormed rest ->
    wellFormed ((t ++ d) :: rest).

(** Such sentences, put together and split again, are found again. *)
Lemma resplit l : wellFormed l -> sentencesOf (concat l) = l.
Proof.
  induction 1 as [|s Hs Hb|t d rest Ht Hd Hr _ IH]; simpl.
  - reflexivity.
  - rewrite app_nil_r, (sentencesOf_plain _ Hs). now rewrite Hb.
  - rewrite <- app_assoc, (sentencesOf_cons _ _ _ Ht Hd Hr). now rewrite IH.
Qed.

(** A text is plain, or starts with a sentence followed by plain text. *)
Lemma first_sentence text :
  plain text
  \/ exists t d r, text = t ++ d ++ r
                   /\ plain t /\ isRun d /\ startsPlain r.
Proof.
  induction text as [|c text IH]; [left; constructor|].
  destruct (isTerminator c) eqn:Hc.
  - right. destruct IH as [Hp|(t & d & r & -> & Ht & [Hne Hd] & Hr)].
    + exists [], [c], text. repeat split; try constructor; auto.
      * discriminate.
      * now apply plain_startsPlain.
    + destruct t as [|c' t].
      * exists [], (c :: d), r. repeat split; try constructor; auto.
        discriminate.
      * exists [], [c], ((c' :: t) ++ d ++ r).
        repeat split; try constructor; auto; try discriminate.
        simpl. now inversion Ht.
  - destruct IH as [Hp|(t & d & r & -> & Ht & Hd & Hr)].
    + left. now constructor.
    + right. exists (c :: t), d, r. repeat split; auto; try apply Hd.
      now constructor.
Qed.

Lemma sentencesOf_wellFormed_upto n : forall text,
  length text <= n -> wellFormed (sentencesOf text).
Proof.
  induction n as [|n IH]; intros text Hlen.
  - destruct text; [apply wf_nil | simpl in Hlen; lia].
  - destruct (first_sentence text)
      as [Hp|(t & d & r & -> & Ht & Hd & Hr)].
    + rewrite (sentencesOf_plain _ Hp).
      destruct (truthy (trim text)) eqn:E; [now apply wf_last|apply wf_nil].
    + rewrite (sentencesOf_cons _ _ _ Ht Hd Hr).
      apply wf_cons; auto.
      * destruct (ChunkerFacts.sentencesOf_text r) as (tail & Htail & _).
        rewrite <- Htail in Hr. now apply startsPlain_prefix in Hr.
      * apply IH. rewrite !length_app in Hlen.
        destruct Hd as [Hne _]. destruct d; [congruence|].
        simpl in Hlen. lia.
Qed.

Lemma sentencesOf_wellFormed text : wellFormed (sentencesOf text).
Proof. now apply (sentencesOf_wellFormed_upto (length text)). Qed.

Lemma wellFormed_suffix a : forall b, wellFormed (a ++ b) -> wellFormed b.
Proof.
  induction a as [|x a IH]; intros b H; [exact H|].
  simpl in H. inversion H as [|s Hs Hb Heq|t d rest Ht Hd Hr Hrest Heq].
  - destruct a; [|discriminate]. simpl in *. subst b. apply wf_nil.
  - now apply IH.
Qed.

Lemma wellFormed_prefix a : forall b, wellFormed (a ++ b) -> wellFormed a.
Proof.
  induction a as [|x a IH]; intros b H; [apply wf_nil|].
  simpl in H. inversion H as [|s Hs Hb Heq|t d rest Ht Hd Hr Hrest Heq].
  - destruct a; [|discriminate]. now apply wf_last.
  - apply wf_cons; auto.
    + rewrite concat_app in Hr. now apply startsPlain_prefix in Hr.
    + now apply (IH b).
Qed.

(** A stretch of consecutive sentences of a list. *)
Definition stretch (g l : list str) : Prop :=
  exists before after, l = before ++ g ++ after.

Lemma stretch_wellFormed g l : stretch g l -> wellFormed l -> wellFormed g.
Proof.
  intros (before & after & ->) H.
  apply wellFormed_suffix in H. now apply wellFormed_prefix in H.
Qed.

(** The groups of the second loop are stretches of the sentences. *)
Lemma group_loop_stretches limit sents :
  let st := fold_left (groupStep limit) sents ([], []) in
  Forall (fun g => stretch g sents) (fst st)
  /\ exists before, sents = before ++ snd st.
Proof.
  apply (fold_left_invariant _ _ (groupStep limit)
           (fun st done =>
              Forall (fun g => stretch g done) (fst st)
              /\ exists before, done = before ++ snd st)).
  - intros [groups cur] done sent [Hg (before & Hc)]; simpl in *.
    assert (Hg' : Forall (fun g => stretch g (done ++ [sent])) groups).
    { eapply Forall_impl; [|exact Hg].
      intros g (b & a & ->). exists b, (a ++ [sent]).
      now rewrite <- !app_assoc. }
    assert (Hcur : stretch cur (done ++ [sent])).
    { exists before, [sent]. rewrite Hc. now rewrite <- app_assoc. }
    destruct (Z.of_nat (length (concat cur) + length sent) >? limit)%Z.
    + destruct (truthy (trim (concat cur))); simpl; split; eauto.
      apply Forall_app. split; auto.
    + simpl. split; auto. exists before. rewrite Hc.
      now rewrite <- app_assoc.
  - simpl. split; [constructor|]. now exists [].
Qed.

Lemma segmentGroups_stretches text limit :
  Forall (fun g => stretch g (sentencesOf text)) (segmentGroups text limit).
Proof.
  unfold segmentGroups.
  pose proof (group_loop_stretches limit (sentencesOf text)) as [Hg Hc].
  destruct (fold_left (groupStep limit) (sentencesOf text) ([], []))
    as [groups cur].
  simpl in *. destruct (truthy (trim (concat cur))); auto.
  apply Forall_app. split; auto. constructor; [|constructor].
  destruct Hc as (before & ->). exists before, []. now rewrite app_nil_r.
Qed.

(** The sentences of a chunk are the sentences of its group. *)
Lemma group_resplit text limit g :
  In g (segmentGroups text limit) -> sentencesOf (concat g) = g.
Proof.
  intros Hin. apply resplit.
  pose proof (segmentGroups_stretches text limit) as H.
  rewrite Forall_forall in H.
  apply (stretch_wellFormed _ _ (H g Hin)), sentencesOf_wellFormed.
Qed.

End ResplitFacts.


(* ===================================================================== *)
(** * Properties of the planner                                          *)
(* ===================================================================== *)

Module PlannerFacts.
Import Effects Planner.

Section Facts.
Variable simpleUpper : char -> char.
Variable planner : PlannerT.
Variable painter : PainterT.

#[local] Abbreviation planStep := (planStep simpleUpper painter).
#[local] Abbreviation planResult := (planResult simpleUpper painter).
#[local] Abbreviation insertionResults := (insertionResults simpleUpper painter).

(** The failure boundary of one plan: whatever the image call does, the
    turn gives a document. *)
Lemma planStep_cases html i plan :
  planStep html (i, plan)
  = match painter i (imagePrompt plan) with
    | inr base64Image => placeImage simpleUpper html plan base64Image
    | inl _ => html
    end.
Proof.
  unfold Planner.planStep. simpl.
  destruct (painter i (imagePrompt plan)); reflexivity.
Qed.

Lemma addIllustrations_cases html imageCount :
  addIllustrationsToArticle simpleUpper planner painter html imageCount
  = match planner html imageCount with
    | inl e => inl e
    | inr None => inl AnalysisFailed
    | inr (Some []) => inl AnalysisFailed
    | inr (Some (p :: ps)) =>
        inr (fold_left planStep (indexed (p :: ps)) html)
    end.
Proof.
  unfold addIllustrationsToArticle. simpl.
  destruct (planner html imageCount) as [e|[[|p ps]|]]; reflexivity.
Qed.

(** A turn that records [Skipped] leaves the document as it is. *)
Lemma skipped_unchanged html ip :
  planResult html ip = Skipped -> planStep html ip = html.
Proof.
  destruct ip as [i plan]. rewrite planStep_cases.
  unfold Planner.planResult, placeImage, Anchor.locate, Anchor.insertInline.
  destruct (painter i (imagePrompt plan)) as [e|[data|]]; auto.
  destruct (truthy data); auto.
  destruct (isCover plan); [discriminate|].
  destruct (contextSnippet plan) as [s|]; auto.
  destruct (truthy s); auto.
  destruct (Anchor.regexTest simpleUpper (trim s) html); [discriminate|].
  destruct (includes html (trim s)); [discriminate|].
  destruct ((10 <? length (substring0 15 (trim s)))
            && includes html (substring0 15 (trim s))); [discriminate|].
  reflexivity.
Qed.


Lemma insertionResults_length ips : forall html,
  length (insertionResults html ips) = length ips.
Proof.
  induction ips as [|ip ips IH]; intros html; simpl; auto.
Qed.







End Facts.
End PlannerFacts.


Module Samples.
Import Effects Planner.

(** Upper case left to ASCII: enough for the ASCII documents below. *)
Definition asciiOnly (c : char) : char := c.

Definition article : str :=
  lit "<p>Alpha beta gamma.</p><p>Delta epsilon.</p>".

Definition cover : PlacementPlan :=
  {| isCover := true; contextSnippet := None; imagePrompt := lit "a lab" |}.
Definition inlineAlpha : PlacementPlan :=
  {| isCover := false; contextSnippet := Some (lit "Alpha beta gamma.");
     imagePrompt := lit "a river" |}.
Definition inlineZeta : PlacementPlan :=
  {| isCover := false; contextSnippet := Some (lit "Zeta eta theta iota.");
     imagePrompt := lit "a hill" |}.

Definition payload : str := lit "QUJD".

Definition threePlans : PlannerT :=
  fun _ _ => inr (Some [cover; inlineAlpha; inlineZeta]).

Definition allPainted : PainterT := fun _ _ => inr (Some payload).

End Samples.






(* ===================================================================== *)
(** * Properties of the string primitives                                *)
(* ===================================================================== *)

Module JSFacts.

Lemma eqc_eq a b : eqc a b = true <-> a = b.
Proof. apply Z.eqb_eq. Qed.

Lemma eqc_refl a : eqc a a = true.
Proof. apply Z.eqb_refl. Qed.

Lemma stripPrefix_app p : forall s r,
  stripPrefix p s = Some r <-> s = p ++ r.
Proof.
  induction p as [|x p IH]; intros s r; simpl.
  - split; [now intros [= ->] | now intros ->].
  - destruct s as [|y s]; [split; discriminate|].
    destruct (eqc x y) eqn:E.
    + apply eqc_eq in E. subst y. rewrite IH.
      split; [now intros -> | now intros [= ->]].
    + split; [discriminate|]. intros [= -> _].
      now rewrite eqc_refl in E.
Qed.

(** [indexOf] gives an occurrence, and the leftmost one. *)
Lemma indexOf_spec p : forall s i,
  indexOf p s = Some i ->
  exists before after,
    s = before ++ p ++ after /\ length before = i
    /\ (forall j, j < i -> stripPrefix p (skipn j s) = None).
Proof.
  induction s as [|c s IH]; intros i; simpl.
  - destruct (stripPrefix p []) as [r|] eqn:E; [|discriminate].
    intros [= <-]. apply stripPrefix_app in E.
    exists [], r. repeat split; auto. intros j Hj. lia.
  - destruct (stripPrefix p (c :: s)) as [r|] eqn:E.
    + intros [= <-]. apply stripPrefix_app in E.
      exists [], r. repeat split; auto. intros j Hj. lia.
    + destruct (indexOf p s) as [i'|] eqn:Ei; [|discriminate].
      simpl. intros [= <-].
      destruct (IH i' eq_refl) as (before & after & Hs & Hlen & Hleft).
      exists (c :: before), after. simpl. rewrite <- Hs, Hlen.
      repeat split; auto.
      intros [|j] Hj; simpl; [exact E|]. apply Hleft. lia.
Qed.

Lemma indexOf_none p : forall s before after,
  indexOf p s = None -> s <> before ++ p ++ after.
Proof.
  induction s as [|c s IH]; intros before after; simpl.
  - destruct (stripPrefix p []) eqn:E; [discriminate|]. intros _ H.
    destruct before; simpl in H.
    + apply (stripPrefix_app p [] after) in H. congruence.
    + discriminate.
  - destruct (stripPrefix p (c :: s)) eqn:E; [discriminate|].
    destruct (indexOf p s) eqn:Ei; [discriminate|]. intros _ H.
    destruct before as [|b before]; simpl in H.
    + apply (stripPrefix_app p (c :: s) after) in H. congruence.
    + injection H as _ H. now apply (IH before after).
Qed.

Lemma includes_true s p :
  includes s p = true <-> exists i, indexOf p s = Some i.
Proof.
  unfold includes. destruct (indexOf p s) as [i|].
  - split; eauto.
  - split; [discriminate | intros [i H]; discriminate].
Qed.

(** A string without [$]. *)
Definition dollarFree (s : str) : bool :=
  forallb (fun c => negb (eqc c dollar)) s.

Lemma dollarFree_app a b :
  dollarFree (a ++ b) = dollarFree a && dollarFree b.
Proof. apply forallb_app. Qed.

(** A template without [$] is its own expansion. *)
Lemma GetSubstitution_plain matched before after captures template :
  dollarFree template = true ->
  GetSubstitution matched before after captures template = template.
Proof.
  induction template as [|c t IH]; simpl; [reflexivity|].
  intros H. apply andb_prop in H. destruct H as [Hc Ht].
  rewrite Hc. now rewrite IH.
Qed.

(** [$1] in front of a template, when there is one group. *)
Lemma GetSubstitution_group1 m before after template :
  GetSubstitution m before after [m] (lit "$1" ++ template)
  = m ++ GetSubstitution m before after [m] template.
Proof.
  change (lit "$1" ++ template) with (36 :: 49 :: template)%Z.
  cbn [GetSubstitution].
  change (negb (eqc 36%Z dollar)) with false.
  change (eqc 49%Z dollar) with false.
  change (eqc 49%Z 96%Z) with false.
  change (eqc 49%Z 38%Z) with false.
  change (eqc 49%Z 39%Z) with false.
  change (isDigit 49%Z) with true.
  cbv iota.
  change (digitVal 49%Z) with 1.
  change (length [m]) with 1.
  destruct template as [|e t3]; [reflexivity|].
  destruct (isDigit e); [|reflexivity].
  replace ((1 <=? 10 * 1 + digitVal e) && (10 * 1 + digitVal e <=? 1))
    with false; [reflexivity|].
  symmetry. apply andb_false_iff. right. apply Nat.leb_gt. lia.
Qed.

Lemma skipn_two (A : Type) (a b c : list A) :
  skipn (length a + length b) (a ++ b ++ c) = c.
Proof.
  rewrite app_assoc, <- length_app, skipn_app, skipn_all, Nat.sub_diag.
  reflexivity.
Qed.

(** Replacing by a template without [$] puts the template in the place of
    the first occurrence. *)
Lemma replaceString_plain s p r i :
  indexOf p s = Some i -> dollarFree r = true ->
  exists before after,
    s = before ++ p ++ after /\ length before = i
    /\ replaceString s p r = before ++ r ++ after.
Proof.
  intros Hi Hr. unfold replaceString. rewrite Hi.
  destruct (indexOf_spec p s i Hi) as (before & after & Hs & Hlen & _).
  exists before, after. repeat split; auto.
  rewrite GetSubstitution_plain by exact Hr.
  subst i. rewrite Hs at 1 2.
  rewrite firstn_app, firstn_all, Nat.sub_diag. simpl. rewrite app_nil_r.
  now rewrite skipn_two.
Qed.

End JSFacts.

(* ===================================================================== *)
(** * Properties of the anchoring ladder                                 *)
(* ===================================================================== *)

Module AnchorFacts.
Import Anchor JSFacts.

Section Facts.
Variable simpleUpper : char -> char.

#[local] Abbreviation Canonicalize := (Canonicalize simpleUpper).
#[local] Abbreviation eqCI := (eqCI simpleUpper).
#[local] Abbreviation stripCI := (stripCI simpleUpper).
#[local] Abbreviation notLt := (notLt simpleUpper).
#[local] Abbreviation starNotLt := (starNotLt simpleUpper).
#[local] Abbreviation paraMatchAt := (paraMatchAt simpleUpper).
#[local] Abbreviation paraExec := (paraExec simpleUpper).

Lemma eqCI_refl c : eqCI c c = true.
Proof. apply eqc_refl. Qed.

(** Only [<] has the canonical form of [<]. *)
Lemma Canonicalize_lt c : Canonicalize c = lt <-> c = lt.
Proof.
  unfold Anchor.Canonicalize, asciiUpper, lt.
  destruct (Z.ltb_spec c 128).
  - destruct (Z.leb_spec 97 c), (Z.leb_spec c 122); simpl; lia.
  - destruct (Z.ltb_spec (simpleUpper c) 128); lia.
Qed.

Lemma notLt_true c : notLt c = true <-> c <> lt.
Proof.
  unfold Anchor.notLt, Anchor.eqCI.
  change (Anchor.Canonicalize simpleUpper lt) with lt.
  rewrite negb_true_iff. split.
  - intros H ->. discriminate H.
  - intros H. destruct (eqc lt (Canonicalize c)) eqn:E; [|reflexivity].
    apply eqc_eq in E. symmetry in E.
    apply (proj1 (Canonicalize_lt c)) in E. contradiction.
Qed.

(** Equal but for the case, code unit by code unit. *)
Definition sameCI (p x : str) : Prop :=
  Forall2 (fun a b => eqCI a b = true) p x.

Lemma sameCI_refl p : sameCI p p.
Proof. induction p; constructor; auto using eqCI_refl. Qed.

Lemma stripCI_shape p : forall s r,
  stripCI p s = Some r -> exists x, s = x ++ r /\ sameCI p x.
Proof.
  induction p as [|a p IH]; intros s r; simpl.
  - intros [= ->]. exists []. split; [reflexivity|constructor].
  - destruct s as [|b s]; [discriminate|].
    destruct (eqCI a b) eqn:E; [|discriminate].
    intros H. destruct (IH s r H) as (x & -> & Hx).
    exists (b :: x). split; [reflexivity|]. now constructor.
Qed.

Lemma stripCI_same p : forall r, stripCI p (p ++ r) = Some r.
Proof.
  induction p as [|a p IH]; intros r; simpl; [reflexivity|].
  now rewrite eqCI_refl.
Qed.

(** The text a match of [(snippet[^<]*</p>)] is made of. *)
Definition ParagraphMatch (snippet m : str) : Prop :=
  exists s t c,
    m = s ++ t ++ c /\ sameCI snippet s
    /\ Forall (fun ch => ch <> lt) t /\ sameCI closeP c.

Lemma closeP_head s r :
  stripCI closeP s = Some r -> exists s', s = lt :: s'.
Proof.
  change closeP with [60; 47; 112; 62]%Z.
  destruct s as [|b s]; simpl; [discriminate|].
  destruct (eqCI 60%Z b) eqn:E; [|discriminate]. intros _.
  apply eqc_eq in E. symmetry in E.
  apply (proj1 (Canonicalize_lt b)) in E.
  subst b. now exists s.
Qed.

Lemma starNotLt_shape : forall s r,
  starNotLt (stripCI closeP) s = Some r ->
  exists t c, s = t ++ c ++ r
              /\ Forall (fun ch => ch <> lt) t /\ sameCI closeP c.
Proof.
  induction s as [|ch s IH]; intros r; cbn [Anchor.starNotLt].
  - discriminate.
  - assert (Hk : stripCI closeP (ch :: s) = Some r ->
                 exists t c, ch :: s = t ++ c ++ r
                   /\ Forall (fun ch => ch <> lt) t /\ sameCI closeP c).
    { intros H. destruct (stripCI_shape _ _ _ H) as (c & Hs & Hc).
      exists [], c. repeat split; auto. }
    destruct (notLt ch) eqn:E; [|exact Hk].
    destruct (starNotLt (stripCI closeP) s) as [rest|] eqn:Es;
      [|exact Hk].
    intros [= ->]. destruct (IH r eq_refl) as (t & c & -> & Ht & Hc).
    exists (ch :: t), c. repeat split; auto.
    constructor; auto. now apply notLt_true.
Qed.

Lemma starNotLt_complete more post :
  Forall (fun ch => ch <> lt) more ->
  starNotLt (stripCI closeP) (more ++ closeP ++ post) = Some post.
Proof.
  induction 1 as [|ch more Hch _ IH].
  - apply (stripCI_same closeP post).
  - cbn [app Anchor.starNotLt].
    apply notLt_true in Hch. now rewrite Hch, IH.
Qed.

Lemma paraMatchAt_shape snippet s r :
  paraMatchAt snippet s = Some r ->
  exists m, s = m ++ r /\ ParagraphMatch snippet m.
Proof.
  unfold Anchor.paraMatchAt.
  destruct (stripCI snippet s) as [s1|] eqn:E; [|discriminate].
  intros H. destruct (stripCI_shape _ _ _ E) as (x & -> & Hx).
  destruct (starNotLt_shape _ _ H) as (t & c & -> & Ht & Hc).
  exists (x ++ t ++ c). split.
  - now rewrite <- !app_assoc.
  - now exists x, t, c.
Qed.

Lemma paraMatchAt_complete snippet more post :
  Forall (fun ch => ch <> lt) more ->
  paraMatchAt snippet (snippet ++ more ++ closeP ++ post) = Some post.
Proof.
  intros H. unfold Anchor.paraMatchAt.
  rewrite stripCI_same. now apply starNotLt_complete.
Qed.

Lemma app_same_length (A : Type) (b pre x y : list A) :
  pre ++ y = b ++ x -> length b = length pre -> b = pre /\ y = x.
Proof.
  revert b. induction pre as [|c pre IH]; intros [|c' b]; simpl;
    try discriminate; auto.
  intros [= <- H] [= Hlen]. destruct (IH b H Hlen) as [-> ->]. auto.
Qed.

Lemma firstn_length_diff (A : Type) (m r : list A) :
  firstn (length (m ++ r) - length r) (m ++ r) = m.
Proof.
  rewrite length_app, Nat.add_sub, firstn_app, firstn_all, Nat.sub_diag.
  simpl. apply app_nil_r.
Qed.

(** What [paraExec] finds is a match, and the leftmost one. *)
Lemma paraExec_spec snippet : forall s b m a,
  paraExec snippet s = Some (b, m, a) ->
  s = b ++ m ++ a
  /\ paraMatchAt snippet (m ++ a) = Some a
  /\ ParagraphMatch snippet m
  /\ (forall i, i < length b -> paraMatchAt snippet (skipn i s) = None).
Proof.
  assert (Hhere : forall s r b m a,
            paraMatchAt snippet s = Some r ->
            Some ([], firstn (length s - length r) s, r) = Some (b, m, a) ->
            s = b ++ m ++ a
            /\ paraMatchAt snippet (m ++ a) = Some a
            /\ ParagraphMatch snippet m
            /\ (forall i, i < length b ->
                          paraMatchAt snippet (skipn i s) = None)).
  { intros s r b m a E H.
    destruct (paraMatchAt_shape _ _ _ E) as (m' & Hs & Hm).
    subst s. rewrite firstn_length_diff in H.
    injection H as <- <- <-. simpl. repeat split; auto.
    intros i Hi. lia. }
  induction s as [|c s IH]; intros b m a; cbn [Anchor.paraExec].
  - destruct (paraMatchAt snippet []) as [r|] eqn:E; [|discriminate].
    apply (Hhere _ _ _ _ _ E).
  - destruct (paraMatchAt snippet (c :: s)) as [r|] eqn:E.
    + apply (Hhere _ _ _ _ _ E).
    + destruct (paraExec snippet s) as [[[b' m'] a']|] eqn:Es;
        [|discriminate].
      intros [= <- <- <-].
      destruct (IH b' m' a' eq_refl) as (Hs & Hm & Hp & Hleft).
      simpl. rewrite <- Hs. repeat split; auto.
      intros [|i] Hi; simpl; [exact E|]. apply Hleft. lia.
Qed.

(** A match at position [n] makes [paraExec] find one at [n] or before. *)
Lemma paraExec_found snippet : forall s n r,
  paraMatchAt snippet (skipn n s) = Some r ->
  exists b m a, paraExec snippet s = Some (b, m, a) /\ length b <= n.
Proof.
  induction s as [|c s IH]; intros n r H; simpl.
  - rewrite skipn_nil in H. rewrite H. eexists _, _, _. split; eauto.
    simpl. lia.
  - destruct (paraMatchAt snippet (c :: s)) as [r'|] eqn:E.
    + eexists _, _, _. split; eauto. simpl. lia.
    + destruct n as [|n]; simpl in H; [congruence|].
      destruct (IH n r H) as (b & m & a & -> & Hb).
      eexists _, _, _. split; eauto. simpl. lia.
Qed.

(** The first rung, on a payload without [$]: the figure goes behind the
    leftmost match. *)
Lemma paragraph_rung snippet html data b m a :
  paraExec snippet html = Some (b, m, a) ->
  dollarFree data = true ->
  insertInline simpleUpper html snippet (imgTag data)
  = b ++ m ++ imgTag data ++ a.
Proof.
  intros H Hd. unfold insertInline, regexTest, regexReplace. rewrite H.
  rewrite GetSubstitution_group1, GetSubstitution_plain.
  - now rewrite <- app_assoc.
  - unfold imgTag. rewrite !dollarFree_app, Hd. reflexivity.
Qed.

End Facts.
End AnchorFacts.

Module LadderFacts.
Import Anchor JSFacts AnchorFacts.

Lemma trimStart_split s :
  exists lead,
    s = lead ++ trimStart s
    /\ Forall (fun c => isWhiteSpace c = true) lead.
Proof.
  induction s as [|c s (lead & Hs & Hlead)]; simpl.
  - exists []. split; [reflexivity|constructor].
  - destruct (isWhiteSpace c) eqn:E.
    + exists (c :: lead). simpl. split; [now f_equal|now constructor].
    + exists []. split; [reflexivity|constructor].
Qed.

(** [trim] takes white space off both ends. *)
Lemma trim_split s :
  exists lead trail,
    s = lead ++ trim s ++ trail
    /\ length lead = length s - length (trimStart s)
    /\ Forall (fun c => isWhiteSpace c = true) lead
    /\ Forall (fun c => isWhiteSpace c = true) trail.
Proof.
  destruct (trimStart_split s) as (lead & Hs & Hlead).
  destruct (trimStart_split (rev (trimStart s))) as (tail & Hr & Htail).
  exists lead, (rev tail). repeat split; auto.
  - rewrite Hs at 1. f_equal. unfold trim, trimEnd.
    rewrite <- rev_app_distr, <- Hr. now rewrite rev_involutive.
  - assert (length s = length lead + length (trimStart s))
      by (rewrite Hs at 1; apply length_app).
    lia.
  - now apply Forall_rev.
Qed.

Lemma whiteSpace_notLt l :
  Forall (fun c => isWhiteSpace c = true) l ->
  Forall (fun c => c <> lt) l.
Proof.
  apply Forall_impl. intros c Hc ->. discriminate Hc.
Qed.

Section Facts.
Variable simpleUpper : char -> char.

(** The first rung, when the snippet is in the document followed by text
    without [<] and a closing tag: it fires, and puts the figure behind the
    leftmost match, which starts there or before. *)
Lemma paragraph_rung_leftmost (pre snippet more post data : str) :
  Forall (fun ch => ch <> lt) more ->
  dollarFree data = true ->
  let html := pre ++ snippet ++ more ++ closeP ++ post in
  locate simpleUpper html snippet = ParagraphBounded
  /\ exists b m a,
       html = b ++ m ++ a
       /\ length b <= length pre
       /\ ParagraphMatch simpleUpper snippet m
       /\ (forall i, i < length b ->
             paraMatchAt simpleUpper snippet (skipn i html) = None)
       /\ insertInline simpleUpper html snippet (imgTag data)
          = b ++ m ++ imgTag data ++ a
       /\ ((forall i, i < length pre ->
              paraMatchAt simpleUpper snippet (skipn i html) = None) ->
           b = pre /\ m = snippet ++ more ++ closeP /\ a = post).
Proof.
  intros Hmore Hdata html.
  pose proof (paraMatchAt_complete simpleUpper snippet more post Hmore)
    as Hhere.
  assert (Hskip : skipn (length pre) html
                  = snippet ++ more ++ closeP ++ post).
  { unfold html. now rewrite skipn_app, skipn_all, Nat.sub_diag. }
  destruct (paraExec_found simpleUpper snippet html (length pre) post)
    as (b & m & a & Hexec & Hb).
  { now rewrite Hskip. }
  destruct (paraExec_spec simpleUpper snippet html b m a Hexec)
    as (Hhtml & Hma & Hshape & Hleft).
  split.
  - unfold locate, regexTest. now rewrite Hexec.
  - exists b, m, a.
    split; [exact Hhtml|]. split; [exact Hb|]. split; [exact Hshape|].
    split; [exact Hleft|]. split.
    + now apply paragraph_rung.
    + intros Hnone.
      assert (Hlen : length b = length pre).
      { destruct (Nat.eq_dec (length b) (length pre)) as [|Hne]; auto.
        assert (Hlt : length b < length pre) by lia.
        specialize (Hnone _ Hlt).
        rewrite Hhtml, skipn_app, skipn_all, Nat.sub_diag in Hnone.
        simpl in Hnone. congruence. }
      destruct (app_same_length _ _ _ _ _ Hhtml Hlen) as [-> Hrest].
      rewrite <- Hrest, Hhere in Hma. injection Hma as <-.
      repeat split.
      rewrite !app_assoc in Hrest. apply app_inv_tail in Hrest.
      now rewrite <- !app_assoc in Hrest.
Qed.

End Facts.
End LadderFacts.

(** C7 (as the code has it).  The plan is not the cover, its snippet [S]
    is in the document inside a paragraph,
    [pre ++ S ++ more ++ "</p>" ++ post], with no [<] in [more], and the
    image call gave a payload without [$] (a base64 payload has none).  The
    first rung fires, with the trimmed snippet.  The figure is inserted
    right behind the leftmost match of the expression, which starts at this
    occurrence or before it and is made of the snippet (any case), text
    without [<] and a closing [</p>] (any case): the figure is behind a
    closing tag, never inside the text.  When no match starts before this
    occurrence, the figure is right behind the closing tag of this very
    paragraph. *)
Theorem C7_figure_after_closing_tag
    (simpleUpper : char -> char) (plan : Planner.PlacementPlan)
    (pre S more post data : str) :
  Planner.isCover plan = false ->
  Planner.contextSnippet plan = Some S ->
  truthy S = true ->
  Forall (fun ch => ch <> Anchor.lt) more ->
  truthy data = true ->
  JSFacts.dollarFree data = true ->
  let html := pre ++ S ++ more ++ Anchor.closeP ++ post in
  let figure := Anchor.imgTag data in
  let start := length pre + (length S - length (trimStart S)) in
  Anchor.locate simpleUpper html (trim S) = Anchor.ParagraphBounded
  /\ exists b m a,
       html = b ++ m ++ a
       /\ length b <= start
       /\ AnchorFacts.ParagraphMatch simpleUpper (trim S) m
       /\ (forall i, i < length b ->
             Anchor.paraMatchAt simpleUpper (trim S) (skipn i html) = None)
       /\ Planner.placeImage simpleUpper html plan (Some data)
          = b ++ m ++ figure ++ a
       /\ ((forall i, i < start ->
              Anchor.paraMatchAt simpleUpper (trim S) (skipn i html) = None)
           -> Planner.placeImage simpleUpper html plan (Some data)
              = pre ++ S ++ more ++ Anchor.closeP ++ figure ++ post).
Proof.
  intros Hcover Hsnippet HS Hmore Hpayload Hdata html figure start.
  subst figure.
  destruct (LadderFacts.trim_split S)
    as (lead & trail & Hsplit & Hlead & Hwl & Hwt).
  assert (Hmore' : Forall (fun ch => ch <> Anchor.lt) (trail ++ more)).
  { apply Forall_app. split; auto.
    now apply LadderFacts.whiteSpace_notLt. }
  assert (Hhtml : html = (pre ++ lead) ++ trim S ++ (trail ++ more)
                           ++ Anchor.closeP ++ post).
  { unfold html. rewrite Hsplit at 1. now rewrite <- !app_assoc. }
  assert (Hstart : start = length (pre ++ lead)).
  { unfold start. rewrite length_app. lia. }
  assert (Hplace : Planner.placeImage simpleUpper html plan (Some data)
                   = Anchor.insertInline simpleUpper html (trim S)
                       (Anchor.imgTag data)).
  { unfold Planner.placeImage. now rewrite Hpayload, Hcover, Hsnippet, HS. }
  destruct (LadderFacts.paragraph_rung_leftmost simpleUpper (pre ++ lead)
              (trim S) (trail ++ more) post data Hmore' Hdata)
    as (Hloc & b & m & a & Hb & Hlen & Hm & Hleft & Hins & Hsame).
  rewrite <- Hhtml in *. rewrite <- Hstart in *.
  split; [exact Hloc|].
  exists b, m, a.
  split; [exact Hb|]. split; [exact Hlen|]. split; [exact Hm|].
  split; [exact Hleft|]. split; [now rewrite Hplace|].
  intros Hnone. rewrite Hplace, Hins.
  destruct (Hsame Hnone) as (-> & -> & ->).
  unfold html. rewrite Hsplit at 2. now rewrite <- !app_assoc.
Qed.

Module AnchorSamples.
Import Effects Planner.

Definition inlinePlan (snippet : String.string) : PlacementPlan :=
  {| isCover := false; contextSnippet := Some (lit snippet);
     imagePrompt := lit "a scene" |}.

(** The planning response holds the one plan with this snippet. *)
Definition onlyPlan (snippet : String.string) : PlannerT :=
  fun _ _ => inr (Some [inlinePlan snippet]).

Definition figure : str := Anchor.imgTag Samples.payload.

End AnchorSamples.

(** The statement above at a document where no match starts before the
    snippet: the figure is right behind the closing tag of its paragraph. *)
Lemma C7_figure_after_closing_tag_witness :
  let pre := lit "<p>" in
  let S := lit " Alpha beta gamma. " in
  let more := lit "More." in
  let post := lit "<p>Delta epsilon.</p>" in
  Forall (fun ch => ch <> Anchor.lt) more
  /\ JSFacts.dollarFree Samples.payload = true
  /\ Planner.placeImage Samples.asciiOnly
       (pre ++ S ++ more ++ Anchor.closeP ++ post)
       (AnchorSamples.inlinePlan " Alpha beta gamma. ")
       (Some Samples.payload)
     = pre ++ S ++ more ++ Anchor.closeP ++ AnchorSamples.figure ++ post.
Proof.
  intros pre S more post.
  assert (Hmore : Forall (fun ch => ch <> Anchor.lt) more).
  { repeat constructor; discriminate. }
  split; [exact Hmore|]. split; [reflexivity|].
  destruct (C7_figure_after_closing_tag Samples.asciiOnly
              (AnchorSamples.inlinePlan " Alpha beta gamma. ")
              pre S more post Samples.payload
              eq_refl eq_refl eq_refl Hmore eq_refl eq_refl)
    as (_ & b & m & a & _ & _ & _ & _ & _ & Hsame).
  apply Hsame.
  intros i Hi. do 4 (destruct i as [|i]; [reflexivity|]).
  simpl in Hi. lia.
Defined.

(** C7 as the specification states it fails: the snippet [Alpha] is in
    the second paragraph only, followed by plain text up to [</p>]; the
    expression has the flag [i] and matches [alpha] in the first paragraph,
    so the figure goes behind the first paragraph, not behind the one that
    holds the snippet. *)
Lemma C7_match_in_another_paragraph :
  let pre := lit "<p>alpha beta</p><p>" in
  let S := lit "Alpha" in
  let more := lit " gamma" in
  let html := pre ++ S ++ more ++ Anchor.closeP in
  html = lit "<p>alpha beta</p><p>Alpha gamma</p>"
  /\ forallb (fun ch => negb (eqc ch Anchor.lt)) more = true
  /\ indexOf S html = Some 20
  /\ indexOf S (skipn 21 html) = None
  /\ Planner.addIllustrationsToArticle Samples.asciiOnly
       (AnchorSamples.onlyPlan "Alpha") Samples.allPainted html 1%Z
     = inr (lit "<p>alpha beta</p>" ++ AnchorSamples.figure
              ++ lit "<p>Alpha gamma</p>")
  /\ Planner.addIllustrationsToArticle Samples.asciiOnly
       (AnchorSamples.onlyPlan "Alpha") Samples.allPainted html 1%Z
     <> inr (pre ++ S ++ more ++ Anchor.closeP ++ AnchorSamples.figure).
Proof. repeat split. vm_compute. discriminate. Qed.

Module RungFacts.
Import Anchor JSFacts.

Section Facts.
Variable simpleUpper : char -> char.

(** The second rung, on a snippet and a fragment without [$]: one copy of
    the fragment, right behind the leftmost occurrence of the snippet. *)
Lemma bare_substring_rung html snippet img :
  regexTest simpleUpper snippet html = false ->
  includes html snippet = true ->
  dollarFree snippet = true -> dollarFree img = true ->
  exists before after,
    html = before ++ snippet ++ after
    /\ indexOf snippet html = Some (length before)
    /\ insertInline simpleUpper html snippet img
       = before ++ snippet ++ img ++ after.
Proof.
  intros H1 H2 Hs Hi. unfold insertInline. rewrite H1, H2.
  apply includes_true in H2. destruct H2 as [i Hidx].
  destruct (replaceString_plain html snippet (snippet ++ img) i Hidx)
    as (before & after & Hhtml & Hlen & Hrep).
  { now rewrite dollarFree_app, Hs, Hi. }
  exists before, after. subst i. rewrite Hrep, <- app_assoc. auto.
Qed.

(** The third rung is tried when the two others fail; it fires exactly
    when the first 15 code units of the snippet are more than 10 and
    occur in the document.  Otherwise the document is left as it is. *)
Lemma truncated_prefix_rung html snippet img :
  regexTest simpleUpper snippet html = false ->
  includes html snippet = false ->
  let shortSnippet := substring0 15 snippet in
  (10 < length shortSnippet /\ includes html shortSnippet = true
   /\ locate simpleUpper html snippet = TruncatedPrefix
   /\ insertInline simpleUpper html snippet img
      = replaceString html shortSnippet (shortSnippet ++ img)
   /\ (dollarFree shortSnippet = true -> dollarFree img = true ->
       exists before after,
         html = before ++ shortSnippet ++ after
         /\ indexOf shortSnippet html = Some (length before)
         /\ insertInline simpleUpper html snippet img
            = before ++ shortSnippet ++ img ++ after))
  \/ ((length shortSnippet <= 10 \/ includes html shortSnippet = false)
      /\ locate simpleUpper html snippet = NotFound
      /\ insertInline simpleUpper html snippet img = html).
Proof.
  intros H1 H2 shortSnippet. unfold insertInline, locate.
  rewrite H1, H2. fold shortSnippet.
  destruct (Nat.ltb_spec 10 (length shortSnippet)) as [Hlen|Hlen];
    [destruct (includes html shortSnippet) eqn:Hinc|]; simpl.
  - left. repeat split; auto. intros Hs Hi.
    apply includes_true in Hinc. destruct Hinc as [i Hidx].
    destruct (replaceString_plain html shortSnippet (shortSnippet ++ img)
                i Hidx) as (before & after & Hhtml & Hl & Hrep).
    { now rewrite dollarFree_app, Hs, Hi. }
    exists before, after. subst i. rewrite Hrep, <- app_assoc. auto.
  - right. auto.
  - right. auto.
Qed.

(** A snippet of 10 code units or fewer that the first two rungs miss is
    not found. *)
Lemma short_snippet_not_found html snippet img :
  regexTest simpleUpper snippet html = false ->
  includes html snippet = false ->
  length snippet <= 10 ->
  locate simpleUpper html snippet = NotFound
  /\ insertInline simpleUpper html snippet img = html.
Proof.
  intros H1 H2 Hlen.
  destruct (truncated_prefix_rung html snippet img H1 H2)
    as [(Hl & _)|(_ & H)]; [|exact H].
  unfold substring0 in Hl. rewrite length_firstn in Hl. lia.
Qed.

End Facts.
End RungFacts.

(** C6, at an input where the code departs from it.  The plan has the
    snippet [Price list $& more text here].  The first two rungs fail and
    the third fires on the prefix [Price list $& m] (15 code units).  The
    figure should follow this prefix in the document; the prefix is also
    the head of the replacement string, where [$&] stands for the matched
    text, so the document gets the prefix with a copy of itself inside, and
    the figure behind that. *)
Theorem C6_dollar_pattern_in_prefix :
  let html := lit "<p>Price list $& many <b>items</b></p>" in
  let snippet := lit "Price list $& more text here" in
  let shortSnippet := lit "Price list $& m" in
  Anchor.regexTest Samples.asciiOnly snippet html = false
  /\ includes html snippet = false
  /\ substring0 15 snippet = shortSnippet
  /\ Anchor.locate Samples.asciiOnly html snippet = Anchor.TruncatedPrefix
  /\ html = lit "<p>" ++ shortSnippet ++ lit "any <b>items</b></p>"
  /\ Planner.addIllustrationsToArticle Samples.asciiOnly
       (AnchorSamples.onlyPlan "Price list $& more text here")
       Samples.allPainted html 1%Z
     = inr (lit "<p>" ++ lit "Price list Price list $& m m"
              ++ AnchorSamples.figure ++ lit "any <b>items</b></p>")
  /\ Planner.addIllustrationsToArticle Samples.asciiOnly
       (AnchorSamples.onlyPlan "Price list $& more text here")
       Samples.allPainted html 1%Z
     <> inr (lit "<p>" ++ shortSnippet ++ AnchorSamples.figure
               ++ lit "any <b>items</b></p>").
Proof. repeat split. vm_compute. discriminate. Qed.

(** C9, at an input where the code departs from it.  The snippet
    [costs $$5] occurs twice, the first rung fails and the second fires.
    The second occurrence is left as it is, but the first one is rewritten:
    in the replacement string [$$] stands for one [$], so the figure
    follows [costs $5], not the occurrence of the snippet. *)
Theorem C9_dollar_pattern_in_snippet :
  let html :=
    lit "<p>It costs $$5 <b>now</b>, it costs $$5 <i>later</i>.</p>" in
  let snippet := lit "costs $$5" in
  Anchor.locate Samples.asciiOnly html snippet = Anchor.BareSubstring
  /\ html = lit "<p>It " ++ snippet ++ lit " <b>now</b>, it " ++ snippet
              ++ lit " <i>later</i>.</p>"
  /\ Planner.addIllustrationsToArticle Samples.asciiOnly
       (AnchorSamples.onlyPlan "costs $$5") Samples.allPainted html 1%Z
     = inr (lit "<p>It " ++ lit "costs $5" ++ AnchorSamples.figure
              ++ lit " <b>now</b>, it " ++ snippet
              ++ lit " <i>later</i>.</p>")
  /\ Planner.addIllustrationsToArticle Samples.asciiOnly
       (AnchorSamples.onlyPlan "costs $$5") Samples.allPainted html 1%Z
     <> inr (lit "<p>It " ++ snippet ++ AnchorSamples.figure
               ++ lit " <b>now</b>, it " ++ snippet
               ++ lit " <i>later</i>.</p>").
Proof. repeat split. vm_compute. discriminate. Qed.

(* ===================================================================== *)
(** * Properties of the narration pipeline                               *)
(* ===================================================================== *)

Module NarrationFacts.
Import Effects Narration.

Lemma setAt_length (A : Type) (l : list A) : forall i v,
  length (setAt l i v) = length l.
Proof.
  induction l as [|x l IH]; intros [|i] v; simpl; auto.
Qed.

Lemma setAt_nth_error (A : Type) (l : list A) : forall i j v,
  nth_error (setAt l i v) j
  = if Nat.eqb i j then option_map (fun _ => v) (nth_error l j)
    else nth_error l j.
Proof.
  induction l as [|x l IH]; intros [|i] [|j] v; simpl; auto.
  all: now destruct (Nat.eqb i j).
Qed.

Lemma allFilled_map (A : Type) (values : list A) :
  allFilled (map Some values) = Some values.
Proof.
  induction values as [|v values IH]; simpl; [reflexivity|].
  now rewrite IH.
Qed.

(** The length of the container: the header and the samples. *)
Lemma writeString_length s : forall buf offset,
  length (writeString buf offset s) = length buf.
Proof.
  induction s as [|c s IH]; intros buf offset; simpl; [reflexivity|].
  rewrite IH. apply setAt_length.
Qed.

Lemma setBytes_length data : forall buf offset,
  length (setBytes buf offset data) = length buf.
Proof.
  induction data as [|b data IH]; intros buf offset; simpl; [reflexivity|].
  rewrite IH. apply setAt_length.
Qed.

Lemma pcmToWav_length pcmData sampleRate numChannels bitsPerSample :
  length (pcmToWav pcmData sampleRate numChannels bitsPerSample)
  = 44 + length pcmData.
Proof.
  unfold pcmToWav, setUint32, setUint16, setUint8.
  rewrite setBytes_length.
  repeat (rewrite ?writeString_length, ?setAt_length).
  apply repeat_length.
Qed.

Section Facts.
Variable speaker : SpeakerT.
Variable atob : AtobT.

(** The failure boundary of a segment: its promise is fulfilled, with the
    artifact or with [null]. *)
Lemma segmentPromise_fulfilled ip :
  segmentPromise speaker atob ip = inr (artifact speaker atob ip).
Proof.
  destruct ip as [index segmentText].
  unfold segmentPromise, synthesize, artifact. simpl.
  destruct (truthy (trim segmentText)); simpl.
  - destruct (speaker index segmentText) as [e|[base64Audio|]]; simpl; auto.
    destruct (truthy base64Audio); simpl; auto.
    destruct (atob base64Audio); reflexivity.
  - destruct (speaker index segmentText) as [e|[base64Audio|]]; reflexivity.
Qed.

Lemma segmentPromises_fulfilled segments :
  map (segmentPromise speaker atob) segments
  = map inr (map (artifact speaker atob) segments).
Proof.
  rewrite map_map. apply map_ext. apply segmentPromise_fulfilled.
Qed.

End Facts.

Lemma collect_none (X : Type) (f : X -> option Blob) (l : list X) :
  (forall x, In x l -> f x = None) -> collect (map f l) = [].
Proof.
  induction l as [|x l IH]; intros H; simpl; [reflexivity|].
  rewrite (H x (or_introl eq_refl)). simpl.
  apply IH. intros y Hy. apply H. now right.
Qed.

Section Settle.
Variable A : Type.
Variable values : list A.

(** A slot is empty or holds the value of the promise of its position. *)
Definition slotsOk (slots : list (option A)) : Prop :=
  length slots = length values
  /\ forall i, nth_error slots i = Some None
               \/ nth_error slots i = option_map Some (nth_error values i).

Lemma slotsOk_setAt slots i v :
  slotsOk slots -> nth_error values i = Some v ->
  slotsOk (setAt slots i (Some v)).
Proof.
  intros [Hlen Hs] Hv. split; [now rewrite setAt_length|].
  intros j. rewrite setAt_nth_error.
  destruct (Nat.eqb_spec i j) as [<-|]; [|apply Hs].
  right. rewrite Hv. simpl.
  destruct (nth_error slots i) eqn:E; [reflexivity|].
  apply nth_error_None in E.
  assert (i < length values) by (apply nth_error_Some; congruence). lia.
Qed.

(** When all the promises are fulfilled, [settle] does not reject; the
    slots stay right, and the slot of every position of the schedule is
    filled. *)
Lemma settle_fulfilled order : forall slots,
  slotsOk slots ->
  exists slots',
    settle (map inr values) slots order = inr slots'
    /\ slotsOk slots'
    /\ (forall i, In i order ->
          nth_error slots' i = option_map Some (nth_error values i))
    /\ (forall i, nth_error slots i = option_map Some (nth_error values i) ->
          nth_error slots' i = option_map Some (nth_error values i)).
Proof.
  induction order as [|i order IH]; intros slots Hok; simpl.
  - exists slots. repeat split; auto; try apply Hok. intros i [].
  - rewrite nth_error_map.
    destruct (nth_error values i) as [v|] eqn:Hv; simpl.
    + destruct (IH _ (slotsOk_setAt slots i v Hok Hv))
        as (slots' & Hs & Hok' & Hin & Hkeep).
      exists slots'. repeat split; auto; try apply Hok'.
      * intros j [<-|Hj]; [|now apply Hin].
        apply Hkeep. rewrite setAt_nth_error, Nat.eqb_refl, Hv. simpl.
        destruct (nth_error slots i) eqn:E; [reflexivity|].
        apply nth_error_None in E. destruct Hok as [Hlen _].
        assert (i < length values) by (apply nth_error_Some; congruence).
        lia.
      * intros j Hj. apply Hkeep. rewrite setAt_nth_error.
        destruct (Nat.eqb_spec i j) as [<-|]; [|exact Hj].
        now rewrite Hj, Hv.
    + destruct (IH _ Hok) as (slots' & Hs & Hok' & Hin & Hkeep).
      exists slots'. repeat split; auto; try apply Hok'.
      intros j [<-|Hj]; [|now apply Hin].
      apply Hkeep. rewrite Hv. simpl.
      destruct Hok as [Hlen _]. apply nth_error_None.
      apply nth_error_None in Hv. lia.
Qed.

Lemma slotsOk_empty : slotsOk (repeat None (length values)).
Proof.
  split; [apply repeat_length|]. intros i.
  destruct (Nat.lt_ge_cases i (length values)) as [Hi|Hi].
  - left. now apply nth_error_repeat.
  - right. rewrite (proj2 (nth_error_None values i) Hi). simpl.
    apply nth_error_None. now rewrite repeat_length.
Qed.

(** [Promise.all] of fulfilled promises is never rejected, whatever the
    schedule. *)
Lemma promiseAll_never_rejects order :
  exists r, promiseAll (map inr values) order = inr r.
Proof.
  unfold promiseAll. rewrite length_map.
  destruct (settle_fulfilled order _ slotsOk_empty) as (slots' & -> & _).
  simpl. eauto.
Qed.

(** Once every promise has settled, the result is the array of the
    values in the order of the promises, whatever the schedule. *)
Lemma promiseAll_in_promise_order order :
  (forall i, i < length values -> In i order) ->
  promiseAll (map inr values) order = inr (Some values).
Proof.
  intros Hall. unfold promiseAll. rewrite length_map.
  destruct (settle_fulfilled order _ slotsOk_empty)
    as (slots' & -> & [Hlen Hok] & Hin & _).
  simpl. f_equal.
  assert (Hs : slots' = map Some values).
  { apply nth_error_ext. intros i. rewrite nth_error_map.
    destruct (Nat.lt_ge_cases i (length values)) as [Hi|Hi].
    - now apply Hin, Hall.
    - rewrite (proj2 (nth_error_None values i) Hi). simpl.
      apply nth_error_None. lia. }
  rewrite Hs. apply allFilled_map.
Qed.

End Settle.
End NarrationFacts.

(** C5.  [generateSpeech] never raises, whatever the schedule of the
    segment promises, the speech collaborator and the decoder do: the
    promise of each segment is fulfilled, with the artifact or with [null]
    on any error.  Once every promise has settled, the call returns the
    artifacts of the segments that succeeded, in the order of the segments,
    whatever the order in which the promises settled.  When every segment
    fails this list is empty. *)
Theorem C5_speech_best_effort_in_segment_order
    (speaker : Narration.SpeakerT) (atob : Narration.AtobT)
    (order : list nat) (text : str) :
  let segments := Narration.enumerate (Chunker.splitTextForTTS text 300) in
  let artifacts := map (Narration.artifact speaker atob) segments in
  (exists r, Narration.generateSpeech speaker atob order text = inr r)
  /\ (forall ip, Narration.segmentPromise speaker atob ip
                 = inr (Narration.artifact speaker atob ip))
  /\ ((forall i, i < length segments -> In i order) ->
      Narration.generateSpeech speaker atob order text
      = inr (Some (Narration.collect artifacts)))
  /\ ((forall ip, In ip segments -> Narration.artifact speaker atob ip = None)
      -> Narration.collect artifacts = []).
Proof.
  intros segments artifacts.
  assert (Hp : map (Narration.segmentPromise speaker atob) segments
               = map inr artifacts)
    by apply NarrationFacts.segmentPromises_fulfilled.
  split; [|split; [|split]].
  - unfold Narration.generateSpeech. fold segments. rewrite Hp.
    destruct (NarrationFacts.promiseAll_never_rejects _ artifacts order)
      as [r ->].
    simpl. eauto.
  - apply NarrationFacts.segmentPromise_fulfilled.
  - intros Hall.
    unfold Narration.generateSpeech. fold segments. rewrite Hp.
    rewrite (NarrationFacts.promiseAll_in_promise_order _ artifacts order);
      [reflexivity|].
    intros i Hi. apply Hall. unfold artifacts in Hi.
    now rewrite length_map in Hi.
  - apply NarrationFacts.collect_none.
Qed.

Module NarrationSamples.
Import Effects Narration.

(** Five sentences of 200 code units: five chunks under the limit 300. *)
Definition sentence (c : char) : str := repeat c 199 ++ lit ".".
Definition fiveSentences : str :=
  (sentence 97 ++ sentence 98 ++ sentence 99 ++ sentence 100
     ++ sentence 101)%Z.

(** The third call fails; the call at position [i] gives the payload of
    the one code unit [65 + i]. *)
Definition thirdFails : SpeakerT :=
  fun i _ =>
    if Nat.eqb i 2 then inl UpstreamFailure
    else inr (Some [(65 + Z.of_nat i)%Z]).

(** A stand-in for the decoder of the platform: one byte per code unit. *)
Definition bytewise : AtobT := fun s => Some s.

(** The promises settle from the last to the first. *)
Definition lastFirst : list nat := [4; 3; 2; 1; 0].

End NarrationSamples.

(** The statement above at five chunks, the third call failing and the
    promises settling from the last to the first: four artifacts, for the
    chunks 0, 1, 3 and 4, in this order. *)
Lemma C5_speech_best_effort_in_segment_order_witness :
  length (Chunker.splitTextForTTS NarrationSamples.fiveSentences 300) = 5
  /\ (forall i, i < 5 -> In i NarrationSamples.lastFirst)
  /\ Narration.generateSpeech NarrationSamples.thirdFails
       NarrationSamples.bytewise NarrationSamples.lastFirst
       NarrationSamples.fiveSentences
     = inr (Some [Narration.pcmToWav [65%Z] 24000 1 16;
                  Narration.pcmToWav [66%Z] 24000 1 16;
                  Narration.pcmToWav [68%Z] 24000 1 16;
                  Narration.pcmToWav [69%Z] 24000 1 16]).
Proof.
  assert (Hlen : length (Narration.enumerate
                   (Chunker.splitTextForTTS NarrationSamples.fiveSentences 300))
                 = 5) by (vm_compute; reflexivity).
  assert (Hall : forall i, i < 5 -> In i NarrationSamples.lastFirst).
  { intros i Hi. do 5 (destruct i as [|i]; [simpl; tauto|]). lia. }
  split; [vm_compute; reflexivity|]. split; [exact Hall|].
  destruct (C5_speech_best_effort_in_segment_order
              NarrationSamples.thirdFails NarrationSamples.bytewise
              NarrationSamples.lastFirst NarrationSamples.fiveSentences)
    as (_ & _ & H & _).
  rewrite H.
  - vm_compute. reflexivity.
  - intros i Hi. rewrite Hlen in Hi. now apply Hall.
Defined.

(* ===================================================================== *)
(** * Properties of the formatter                                        *)
(* ===================================================================== *)

Module WeChatFacts.
Import WeChat.

(** Induction on a tree, with the hypothesis for every child. *)
Fixpoint node_induction (P : node -> Prop)
    (HText : forall data, P (Text data))
    (HElement : forall tagName attributes style children,
        Forall P children -> P (Element tagName attributes style children))
    (n : node) : P n :=
  match n with
  | Text data => HText data
  | Element tagName attributes style children =>
      HElement tagName attributes style children
        ((fix all (l : list node) : Forall P l :=
            match l with
            | [] => Forall_nil P
            | child :: rest =>
                Forall_cons child (node_induction P HText HElement child)
                  (all rest)
            end) children)
  end.

(** [walk] on an element, through [walkChildren]. *)
Lemma walk_Element parentTagName tagName attributes style children :
  walk parentTagName (Element tagName attributes style children)
  = let '(attributes, style, toParent) :=
      processNode parentTagName tagName attributes style in
    let '(children, style) := walkChildren tagName children style in
    (Element tagName attributes style children, toParent).
Proof.
  cbn [walk].
  destruct (processNode parentTagName tagName attributes style)
    as [[attributes' style'] toParent].
  match goal with
  | |- (let '(_, _) := ?F children style' in _) = _ =>
      assert (H : forall kids st, F kids st = walkChildren tagName kids st)
  end.
  { induction kids as [|kid kids IH]; intros st; [reflexivity|].
    cbn [walkChildren].
    destruct (walk (Some tagName) kid) as [kid' fromChild].
    now rewrite IH. }
  now rewrite H.
Qed.

Ltac split_ifs :=
  repeat match goal with
         | |- context [if ?b then _ else _] => destruct b eqn:?
         end.

(** Only an image inside a figure gives a style to its parent, and this
    style is the one of figures. *)
Lemma processNode_toParent parentTagName tagName attributes style st :
  snd (processNode parentTagName tagName attributes style) = Some st ->
  exists parent,
    parentTagName = Some parent
    /\ isTag (toLowerCase parent) "figure" = true /\ st = figureCss.
Proof.
  unfold processNode.
  destruct parentTagName as [parent|]; split_ifs; simpl;
    try discriminate.
  intros [= <-]. now exists parent.
Qed.

Lemma walk_toParent parentTagName n st :
  snd (walk parentTagName n) = Some st ->
  exists parent,
    parentTagName = Some parent
    /\ isTag (toLowerCase parent) "figure" = true /\ st = figureCss.
Proof.
  destruct n as [data|tagName attributes style children];
    [discriminate|].
  rewrite walk_Element.
  destruct (processNode parentTagName tagName attributes style)
    as [[attributes' style'] toParent] eqn:E.
  destruct (walkChildren tagName children style') as [children' style''].
  simpl. intros ->.
  apply (processNode_toParent parentTagName tagName attributes style).
  now rewrite E.
Qed.

(** The children of an element that is not a figure leave its style. *)
Lemma walkChildren_style tagName children : forall style,
  isTag (toLowerCase tagName) "figure" = false ->
  snd (walkChildren tagName children style) = style.
Proof.
  induction children as [|child rest IH]; intros style Hfig;
    [reflexivity|].
  cbn [walkChildren].
  destruct (walk (Some tagName) child) as [child' fromChild] eqn:E.
  destruct fromChild as [st|].
  - destruct (walk_toParent (Some tagName) child st) as (p & [= <-] & H & _).
    + now rewrite E.
    + congruence.
  - specialize (IH style Hfig).
    destruct (walkChildren tagName rest style) as [rest' style'].
    exact IH.
Qed.

Definition countAll (children : list node) : nat :=
  fold_right (fun child k => countElements child + k) 0 children.

(** [walk] renames nothing, adds nothing and removes nothing. *)
Lemma walk_count n : forall parentTagName,
  countElements (fst (walk parentTagName n)) = countElements n.
Proof.
  induction n as [data|tagName attributes style children IH]
    using node_induction; intros parentTagName; [reflexivity|].
  rewrite walk_Element.
  destruct (processNode parentTagName tagName attributes style)
    as [[attributes' style'] toParent].
  assert (H : forall st,
            countAll (fst (walkChildren tagName children st))
            = countAll children).
  { induction IH as [|child rest Hchild _ IHrest]; intros st;
      [reflexivity|].
    cbn [walkChildren].
    specialize (Hchild (Some tagName)).
    destruct (walk (Some tagName) child) as [child' fromChild].
    specialize (IHrest (match fromChild with Some s => s | None => st end)).
    destruct (walkChildren tagName rest _) as [rest' st'].
    simpl in *. now rewrite Hchild, IHrest. }
  specialize (H style').
  destruct (walkChildren tagName children style') as [children' style''].
  simpl in *. fold (countAll children') (countAll children). now rewrite H.
Qed.

(** The result of the formatter, as a tree: one container with the base
    style and the marker, around the processed children of the body. *)
Lemma formatDom_wrapper bodyChildren :
  formatDom bodyChildren
  = Element (lit "section") [dataTool] wrapperCss
      (fst (walkChildren (lit "section") bodyChildren wrapperCss)).
Proof.
  unfold formatDom, wrapper. rewrite walk_Element.
  change (processNode (Some (lit "body")) (lit "section") [dataTool]
            wrapperCss)
    with ([dataTool], wrapperCss, @None Style).
  cbv iota beta.
  pose proof (walkChildren_style (lit "section") bodyChildren wrapperCss
                eq_refl) as H.
  destruct (walkChildren (lit "section") bodyChildren wrapperCss)
    as [children style].
  simpl in *. now subst style.
Qed.

(** A container that is already there is kept as it is, as a child. *)
Lemma walk_previous_wrapper children :
  fst (walk (Some (lit "section")) (wrapper children))
  = Element (lit "section") [dataTool] wrapperCss
      (fst (walkChildren (lit "section") children wrapperCss)).
Proof.
  unfold wrapper. rewrite walk_Element.
  change (processNode (Some (lit "section")) (lit "section") [dataTool]
            wrapperCss)
    with ([dataTool], wrapperCss, @None Style).
  cbv iota beta.
  pose proof (walkChildren_style (lit "section") children wrapperCss
                eq_refl) as H.
  destruct (walkChildren (lit "section") children wrapperCss)
    as [children' style].
  simpl in *. now subst style.
Qed.

Lemma walkChildren_single tagName n style :
  fst (walkChildren tagName [n] style) = [fst (walk (Some tagName) n)].
Proof.
  cbn [walkChildren]. now destruct (walk (Some tagName) n).
Qed.

Lemma formatDom_previous_wrapper previous :
  formatDom [wrapper previous]
  = wrapper [wrapper (fst (walkChildren (lit "section") previous wrapperCss))].
Proof.
  rewrite formatDom_wrapper, walkChildren_single, walk_previous_wrapper.
  reflexivity.
Qed.

Lemma formatDom_count bodyChildren :
  countElements (formatDom bodyChildren) = S (countAll bodyChildren).
Proof.
  unfold formatDom. rewrite walk_count. reflexivity.
Qed.

End WeChatFacts.

Module ResetFacts.
Import WeChat JSFacts.

Lemma eqs_spec a : forall b, reflect (a = b) (eqs a b).
Proof.
  induction a as [|x a IH]; intros [|y b]; simpl;
    try (constructor; congruence).
  unfold eqc. destruct (Z.eqb_spec x y) as [Hxy|Hxy]; simpl.
  - destruct (IH b) as [Hab|Hab]; constructor; congruence.
  - constructor. congruence.
Qed.

Lemma setProperty_get style property value :
  getPropertyValue (setProperty style property value) property = Some value.
Proof.
  induction style as [|[p v] style IH]; simpl.
  - destruct (eqs_spec property property); congruence.
  - destruct (eqs p property) eqn:E; simpl; now rewrite E.
Qed.

(** Setting a property leaves the other ones. *)
Lemma setProperty_other style property value other :
  eqs other property = false ->
  getPropertyValue (setProperty style property value) other
  = getPropertyValue style other.
Proof.
  intros Hne. induction style as [|[p v] style IH]; simpl.
  - destruct (eqs_spec property other) as [<-|]; [|reflexivity].
    destruct (eqs_spec property property); congruence.
  - destruct (eqs_spec p property) as [->|Hp]; simpl.
    + destruct (eqs_spec property other) as [<-|]; [|reflexivity].
      destruct (eqs_spec property property); congruence.
    + now rewrite IH.
Qed.

(** The tags whose rule replaces the style without the reset. *)
Definition losesReset (tagName : str) : bool :=
  let t := toLowerCase tagName in
  isTag t "strong" || isTag t "b" || isTag t "em" || isTag t "u"
  || isTag t "ul" || isTag t "ol" || isTag t "li".

(** After [processNode], the element has the reset unless its tag is one
    of these. *)
Lemma processNode_reset parentTagName tagName attributes style :
  getPropertyValue
    (snd (fst (processNode parentTagName tagName attributes style)))
    boxSizing
  = if losesReset tagName then None else Some borderBox.
Proof.
  unfold processNode, losesReset, isTag.
  remember (toLowerCase tagName) as t eqn:Ht. clear Ht.
  repeat match goal with
         | |- context [eqs t (lit ?s)] =>
             destruct (eqs_spec t (lit s)) as [->|?];
             [vm_compute; reflexivity|]
         end.
  simpl. apply setProperty_get.
Qed.

End ResetFacts.

(** C2, at an input where the code departs from it.  The document is a
    paragraph with a [strong] inside.  The reset is put on every element,
    then the rule of the tag replaces the whole style: the paragraph gets
    it back from its rule, the [strong] is left without it. *)
Theorem C2_strong_loses_box_sizing :
  let body :=
    [WeChat.Element (lit "p") [] []
       [WeChat.Text (lit "A ");
        WeChat.Element (lit "strong") [] [] [WeChat.Text (lit "key")]]] in
  WeChat.formatDom body
  = WeChat.Element (lit "section") [WeChat.dataTool] WeChat.wrapperCss
      [WeChat.Element (lit "p") [] WeChat.pCss
         [WeChat.Text (lit "A ");
          WeChat.Element (lit "strong") [] WeChat.strongCss
            [WeChat.Text (lit "key")]]]
  /\ WeChat.getPropertyValue WeChat.strongCss WeChat.boxSizing = None
  /\ map WeChat.carriesReset (WeChat.elementsOf (WeChat.formatDom body))
     = [true; true; false].
Proof. repeat split. Qed.

(** C10.  Every call wraps the processed document in one new [section]
    with the base style and the marker [data-tool="AIWriter"]; the text
    returned is the serialization of this container, with the figures
    renamed.  When the input is one such container already, it is kept, as
    the only child of the new one.  So formatting twice nests the first
    container in a second one, and gives another tree than formatting
    once. *)
Theorem C10_new_wrapper_at_every_call
    (parseBody : str -> list WeChat.node)
    (innerHTML : list WeChat.node -> str) (html : str) :
  let section := lit "section" in
  let container := WeChat.Element section [WeChat.dataTool] WeChat.wrapperCss in
  let processed children :=
    fst (WeChat.walkChildren section children WeChat.wrapperCss) in
  let body := parseBody html in
  WeChat.formatDom body = container (processed body)
  /\ WeChat.formatHtmlForWeChat parseBody innerHTML html
     = WeChat.replaceAll (lit "</figure>") (lit "</p>")
         (WeChat.replaceAll (lit "<figure") (lit "<p")
            (innerHTML [container (processed body)]))
  /\ (forall previous,
        WeChat.formatDom [container previous]
        = container [container (processed previous)])
  /\ WeChat.formatDom [WeChat.formatDom body]
     = container [container (processed (processed body))]
  /\ WeChat.formatDom [WeChat.formatDom body] <> WeChat.formatDom body.
Proof.
  intros section container processed body.
  assert (Hnest : forall previous,
            WeChat.formatDom [container previous]
            = container [container (processed previous)])
    by exact WeChatFacts.formatDom_previous_wrapper.
  split; [apply WeChatFacts.formatDom_wrapper|].
  split; [unfold WeChat.formatHtmlForWeChat;
          now rewrite WeChatFacts.formatDom_wrapper|].
  split; [exact Hnest|].
  split.
  - rewrite (WeChatFacts.formatDom_wrapper body). apply Hnest.
  - intros H. apply (f_equal WeChat.countElements) in H.
    rewrite (WeChatFacts.formatDom_count [WeChat.formatDom body]) in H.
    simpl in H. lia.
Qed.

(* ===================================================================== *)
(** * The scenarios of the specification, run on the model               *)
(* ===================================================================== *)

Module Scenarios.
Import Effects Planner.

Definition figure : str := Anchor.imgTag Samples.payload.

(** The cover and one illustration: the cover is put in front of the
    article, the second figure right behind the closing tag of the first
    paragraph. *)
Definition twoPlans : PlannerT :=
  fun _ _ => inr (Some [Samples.cover; Samples.inlineAlpha]).

Example cover_then_first_paragraph :
  addIllustrationsToArticle Samples.asciiOnly twoPlans Samples.allPainted
    Samples.article 2%Z
  = inr (figure ++ lit "<p>Alpha beta gamma.</p>" ++ figure
           ++ lit "<p>Delta epsilon.</p>").
Proof. vm_compute. reflexivity. Qed.

(** The snippet is raw text with a tag before the end of the paragraph:
    the second rung puts the figure right behind the snippet. *)
Example fallback_after_snippet :
  let html := lit "<p>Alpha beta <b>gamma</b>.</p>" in
  Anchor.locate Samples.asciiOnly html (lit "Alpha beta")
  = Anchor.BareSubstring
  /\ Anchor.insertInline Samples.asciiOnly html (lit "Alpha beta") figure
     = lit "<p>Alpha beta" ++ figure ++ lit " <b>gamma</b>.</p>".
Proof. split; vm_compute; reflexivity. Qed.

(** A snippet of 25 code units of which the document has the first 15:
    the third rung puts the figure right behind them. *)
Example truncation_finds_prefix :
  let html := lit "<p>The quick brown dog <b>barks</b>.</p>" in
  let snippet := lit "The quick brown fox jumps" in
  length snippet = 25
  /\ Anchor.locate Samples.asciiOnly html snippet = Anchor.TruncatedPrefix
  /\ Anchor.insertInline Samples.asciiOnly html snippet figure
     = lit "<p>The quick brown" ++ figure ++ lit " dog <b>barks</b>.</p>".
Proof. repeat split; vm_compute; reflexivity. Qed.

(** The document has the first 8 code units only: nothing is found and
    the document stays as it is. *)
Example truncation_rejects_short_match :
  let html := lit "<p>The quicker brown dog <b>barks</b>.</p>" in
  let snippet := lit "The quick brown fox jumps" in
  includes html (substring0 8 snippet) = true
  /\ Anchor.locate Samples.asciiOnly html snippet = Anchor.NotFound
  /\ Anchor.insertInline Samples.asciiOnly html snippet figure = html.
Proof. repeat split; vm_compute; reflexivity. Qed.

(** A sentence of 401 code units is one chunk, over the limit. *)
Example oversized_sentence_is_one_chunk :
  let sentence := repeat 97%Z 400 ++ lit "." in
  Chunker.splitTextForTTS (lit "Short one. " ++ sentence ++ lit " End.") 300
  = [lit "Short one."; lit " " ++ sentence; lit " End."].
Proof. vm_compute. reflexivity. Qed.

(** Blank input gives no chunk. *)
Example blank_text_no_chunk :
  Chunker.splitTextForTTS (lit "  ") 300 = []
  /\ Chunker.splitTextForTTS [] 300 = [].
Proof. split; reflexivity. Qed.

(** The header of the container for three samples. *)
Example wav_header :
  Narration.pcmToWav [1; 2; 3]%Z 24000 1 16
  = (lit "RIFF" ++ [39; 0; 0; 0] ++ lit "WAVE" ++ lit "fmt "
       ++ [16; 0; 0; 0] ++ [1; 0] ++ [1; 0] ++ [192; 93; 0; 0]
       ++ [128; 187; 0; 0] ++ [2; 0] ++ [16; 0] ++ lit "data"
       ++ [3; 0; 0; 0] ++ [1; 2; 3])%Z.
Proof. vm_compute. reflexivity. Qed.

End Scenarios.

(* ===================================================================== *)
(** * The audio container                                                *)
(* ===================================================================== *)

Module WavFacts.
Import Narration.





Lemma setAt_app (A : Type) (pre : list A) : forall t tail v,
  setAt (pre ++ t :: tail) (length pre) v = pre ++ v :: tail.
Proof.
  induction pre as [|x pre IH]; intros t tail v; simpl; [reflexivity|].
  now rewrite IH.
Qed.

(** Writing as many bytes as are left behind a prefix replaces them. *)
Lemma setBytes_tail data : forall pre tail,
  length tail = length data ->
  setBytes (pre ++ tail) (length pre) data = pre ++ data.
Proof.
  induction data as [|b data IH]; intros pre [|t tail] Hlen;
    try discriminate; simpl.
  - reflexivity.
  - rewrite setAt_app.
    replace (pre ++ b :: tail) with ((pre ++ [b]) ++ tail)
      by now rewrite <- app_assoc.
    replace (length pre + 1) with (length (pre ++ [b]))
      by (rewrite length_app; reflexivity).
    rewrite IH by (simpl in Hlen; lia).
    now rewrite <- app_assoc.
Qed.

Definition u8 (v : Z) : byte := (v mod 256)%Z.
Definition u16 (v : Z) : list byte := [u8 v; u8 (v / 256)%Z].
Definition u32 (v : Z) : list byte := u16 v ++ u16 (v / 65536)%Z.

(** The 44 bytes in front of the samples. *)
Definition header (dataLength sampleRate numChannels bitsPerSample : Z)
  : list byte :=
  lit "RIFF" ++ u32 (dataLength + 36)%Z ++ lit "WAVE" ++ lit "fmt "
  ++ u32 16%Z ++ u16 1%Z ++ u16 numChannels ++ u32 sampleRate
  ++ u32 (sampleRate * numChannels * bitsPerSample / 8)%Z
  ++ u16 (numChannels * bitsPerSample / 8)%Z ++ u16 bitsPerSample
  ++ lit "data" ++ u32 dataLength.

Lemma pcmToWav_layout pcmData sampleRate numChannels bitsPerSample :
  pcmToWav pcmData sampleRate numChannels bitsPerSample
  = header (Z.of_nat (length pcmData)) sampleRate numChannels bitsPerSample
    ++ pcmData.
Proof.
  unfold pcmToWav. cbv zeta.
  replace (Z.of_nat (44 + length pcmData) - 8)%Z
    with (Z.of_nat (length pcmData) + 36)%Z by lia.
  remember (Z.of_nat (length pcmData)) as n eqn:Hn.
  change (44 + length pcmData)
    with (length (repeat 0%Z 44) + length pcmData).
  assert (Hbuf : repeat 0%Z (length (repeat 0%Z 44) + length pcmData)
                 = repeat 0%Z 44 ++ repeat 0%Z (length pcmData))
    by apply repeat_app.
  rewrite Hbuf. clear Hbuf.
  generalize (repeat 0%Z (length pcmData)) (repeat_length 0%Z (length pcmData)).
  intros tail Htail.
  match goal with
  | |- setBytes ?view 44 pcmData = ?h ++ pcmData =>
      assert (Hview : view = h ++ tail)
  end.
  { unfold header, u32, u16, u8, setUint32, setUint16, setUint8.
    change (lit "RIFF") with [82; 73; 70; 70]%Z.
    change (lit "WAVE") with [87; 65; 86; 69]%Z.
    change (lit "fmt ") with [102; 109; 116; 32]%Z.
    change (lit "data") with [100; 97; 116; 97]%Z.
    cbn [repeat app writeString setAt Nat.add].
    reflexivity. }
  rewrite Hview.
  assert (Hlen : length (header n sampleRate numChannels bitsPerSample) = 44)
    by reflexivity.
  rewrite <- Hlen at 1.
  now apply setBytes_tail.
Qed.

End WavFacts.

(** X1.  [pcmToWav] gives the 44 bytes of the header followed by the
    samples as they are: the result is 44 bytes longer than the samples,
    and the samples are read back from the offset 44. *)
Theorem X1_wav_is_header_then_samples
    (pcmData : list Narration.byte) (sampleRate numChannels bitsPerSample : Z) :
  let wav := Narration.pcmToWav pcmData sampleRate numChannels bitsPerSample in
  length wav = 44 + length pcmData
  /\ skipn 44 wav = pcmData
  /\ firstn 44 wav
     = WavFacts.header (Z.of_nat (length pcmData)) sampleRate numChannels
         bitsPerSample.
Proof.
  intros wav. unfold wav. rewrite WavFacts.pcmToWav_layout.
  assert (Hlen : length (WavFacts.header (Z.of_nat (length pcmData))
                           sampleRate numChannels bitsPerSample) = 44)
    by reflexivity.
  split; [|split].
  - rewrite length_app, Hlen. reflexivity.
  - rewrite <- Hlen at 1. rewrite skipn_app, skipn_all, Nat.sub_diag.
    reflexivity.
  - rewrite <- Hlen at 1. rewrite firstn_app, firstn_all, Nat.sub_diag.
    cbn [firstn]. apply app_nil_r.
Qed.




(* ===================================================================== *)
(** * More on the chunker and the narration                              *)
(* ===================================================================== *)

Module BlankFacts.

Definition allWhite (s : str) : Prop :=
  Forall (fun c => isWhiteSpace c = true) s.

Lemma trimStart_nil s : trimStart s = [] <-> allWhite s.
Proof.
  induction s as [|c s IH]; simpl.
  - split; [constructor|reflexivity].
  - destruct (isWhiteSpace c) eqn:E.
    + rewrite IH. split; [now constructor|now inversion 1].
    + split; [discriminate|]. inversion 1. congruence.
Qed.

Lemma trimStart_head s c t :
  trimStart s = c :: t -> isWhiteSpace c = false.
Proof.
  induction s as [|d s IH]; simpl; [discriminate|].
  destruct (isWhiteSpace d) eqn:E; [exact IH|]. now intros [= <- _].
Qed.

Lemma trimStart_keeps_last l c :
  isWhiteSpace c = false -> trimStart (l ++ [c]) <> [].
Proof.
  intros Hc H. apply trimStart_nil in H.
  apply Forall_app in H. destruct H as [_ H]. inversion H. congruence.
Qed.

(** A text is blank (its [trim] is empty) when all its code units are
    white space. *)
Lemma blank_allWhite s : truthy (trim s) = false <-> allWhite s.
Proof.
  rewrite <- trimStart_nil. unfold trim, trimEnd.
  destruct (trimStart s) as [|c t] eqn:E.
  - split; reflexivity.
  - split; [|discriminate]. intros H.
    pose proof (trimStart_head _ _ _ E) as Hc.
    destruct (rev (trimStart (rev (c :: t)))) eqn:Er; [|discriminate].
    apply (f_equal (@rev char)) in Er. rewrite rev_involutive in Er.
    simpl in Er. now apply trimStart_keeps_last in Er.
Qed.

Lemma allWhite_app a b : allWhite (a ++ b) <-> allWhite a /\ allWhite b.
Proof. apply Forall_app. Qed.

Lemma allWhite_concat l : allWhite (concat l) <-> Forall allWhite l.
Proof.
  induction l as [|x l IH]; simpl.
  - split; constructor.
  - rewrite allWhite_app, IH. split.
    + intros [Hx Hl]. now constructor.
    + now inversion 1.
Qed.

End BlankFacts.

Module ChunkMore.
Import Chunker BlankFacts.

(** The chunks are the spans of the text that are kept. *)
Lemma chunks_spans text limit :
  exists spans,
    ChunkerFacts.wholeText spans = text
    /\ ChunkerFacts.keptText spans = concat (splitTextForTTS text limit)
    /\ ChunkerFacts.droppedBlank spans.
Proof.
  unfold splitTextForTTS.
  destruct (ChunkerFacts.sentencesOf_text text) as (tail & Htext & Htail).
  pose proof (ChunkerFacts.segment_loop_spans limit (sentencesOf text))
    as (spans & Hw & Hk & Hd).
  destruct (fold_left (segmentStep limit) (sentencesOf text) ([], []))
    as [segs cur].
  simpl in *.
  exists (spans ++ [(cur, truthy (trim cur))] ++ [(tail, false)]).
  rewrite app_assoc.
  rewrite ChunkerFacts.wholeText_snoc, ChunkerFacts.keptText_snoc.
  rewrite ChunkerFacts.wholeText_snoc, ChunkerFacts.keptText_snoc.
  rewrite Hw, Htext, app_nil_r, Hk.
  repeat split.
  - destruct (truthy (trim cur)).
    + now rewrite ChunkerFacts.concat_snoc.
    + now rewrite app_nil_r.
  - apply ChunkerFacts.droppedBlank_snoc; [|auto].
    apply ChunkerFacts.droppedBlank_snoc; auto.
Qed.

Lemma chunks_nonblank text limit :
  Forall (fun chunk => truthy (trim chunk) = true)
         (splitTextForTTS text limit).
Proof.
  unfold splitTextForTTS.
  pose proof (ChunkerFacts.segment_loop_nonblank limit (sentencesOf text))
    as Hn.
  destruct (fold_left (segmentStep limit) (sentencesOf text) ([], []))
    as [segs cur].
  simpl in *. destruct (truthy (trim cur)) eqn:E; auto.
  apply Forall_app. split; auto.
Qed.

(** What is kept of spans of white space is white space. *)
Lemma kept_allWhite spans :
  allWhite (ChunkerFacts.wholeText spans) ->
  allWhite (ChunkerFacts.keptText spans).
Proof.
  unfold ChunkerFacts.wholeText, ChunkerFacts.keptText.
  induction spans as [|[s b] spans IH]; simpl; [auto|].
  rewrite allWhite_app. intros [Hs Hrest].
  destruct b; simpl; auto. rewrite allWhite_app. auto.
Qed.

(** While the sentences fit, the second loop only appends. *)
Lemma segment_loop_fits limit sents : forall segs cur,
  (Z.of_nat (length cur + length (concat sents)) <= limit)%Z ->
  fold_left (segmentStep limit) sents (segs, cur)
  = (segs, cur ++ concat sents).
Proof.
  induction sents as [|sent sents IH]; intros segs cur Hfit; simpl.
  - now rewrite app_nil_r.
  - simpl in Hfit. rewrite length_app in Hfit.
    destruct (Z.gtb_spec (Z.of_nat (length cur + length sent)) limit);
      [lia|].
    rewrite IH by (rewrite length_app; lia).
    now rewrite <- app_assoc.
Qed.


(** The groups are not blank, and those of two sentences or more fit in
    the limit. *)
Lemma group_facts text limit g :
  In g (segmentGroups text limit) ->
  truthy (trim (concat g)) = true
  /\ (2 <= length g -> (Z.of_nat (length (concat g)) <= limit)%Z).
Proof.
  intros Hin. split.
  - pose proof (chunks_nonblank text limit) as Hn.
    rewrite <- GroupFacts.segmentGroups_chunks in Hn.
    rewrite Forall_forall in Hn. apply Hn. now apply in_map.
  - intros Hlen.
    pose proof (GroupFacts.group_loop_bound limit (sentencesOf text))
      as [Hb Hc].
    apply GroupFacts.flushGroup_In in Hin.
    destruct Hin as [Hin|[-> _]]; auto.
Qed.

End ChunkMore.

(** X3.  A text that is empty or all white space gives no chunk, whatever
    the limit. *)
Theorem X3_blank_text_gives_no_chunk (text : str) (limit : Z) :
  truthy (trim text) = false -> Chunker.splitTextForTTS text limit = [].
Proof.
  intros Hblank. apply BlankFacts.blank_allWhite in Hblank.
  destruct (ChunkMore.chunks_spans text limit) as (spans & Hw & Hk & _).
  pose proof (ChunkMore.chunks_nonblank text limit) as Hn.
  rewrite <- Hw in Hblank. apply ChunkMore.kept_allWhite in Hblank.
  rewrite Hk in Hblank. apply BlankFacts.allWhite_concat in Hblank.
  destruct (Chunker.splitTextForTTS text limit) as [|chunk chunks];
    [reflexivity|].
  inversion Hn as [|? ? Hc _]; inversion Hblank as [|? ? Hw' _]; subst.
  apply BlankFacts.blank_allWhite in Hw'. congruence.
Qed.

(** The statement above at a text of spaces, a line break and an ideographic space. *)
Lemma X3_blank_text_gives_no_chunk_witness :
  Chunker.splitTextForTTS (lit "  " ++ [10; 12288]%Z) 300 = [].
Proof.
  apply (X3_blank_text_gives_no_chunk (lit "  " ++ [10; 12288]%Z) 300).
  reflexivity.
Defined.

(** X4.  A text that is not blank and not longer than the limit is one
    chunk: the text itself, less a blank end behind its last terminator. *)
Theorem X4_text_within_limit_is_one_chunk (text : str) (limit : Z) :
  (Z.of_nat (length text) <= limit)%Z ->
  truthy (trim text) = true ->
  exists chunk tail,
    Chunker.splitTextForTTS text limit = [chunk]
    /\ text = chunk ++ tail
    /\ truthy (trim tail) = false
    /\ Chunker.hasTerminator tail = false.
Proof.
  intros Hfit Hnonblank.
  assert (Htail : exists tail,
            concat (Chunker.sentencesOf text) ++ tail = text
            /\ truthy (trim tail) = false
            /\ Chunker.hasTerminator tail = false).
  { clear Hfit Hnonblank. unfold Chunker.sentencesOf.
    pose proof (ChunkerFacts.sentence_loop_keeps (Chunker.rawParts text))
      as Hkeep.
    rewrite ChunkerFacts.concat_rawParts in Hkeep.
    assert (Hbuf : Chunker.hasTerminator
                     (snd (fold_left Chunker.sentenceStep
                             (Chunker.rawParts text) ([], []))) = false).
    { apply (fold_left_invariant _ _ Chunker.sentenceStep
               (fun st _ => Chunker.hasTerminator (snd st) = false)).
      - intros [ss buf] done part H. simpl in *.
        destruct (Chunker.hasTerminator part) eqn:E; simpl; auto.
        unfold Chunker.hasTerminator in *.
        rewrite existsb_app, H, E. reflexivity.
      - reflexivity. }
    destruct (fold_left Chunker.sentenceStep (Chunker.rawParts text)
                ([], [])) as [ss buf].
    simpl in *. destruct (truthy (trim buf)) eqn:E.
    + exists []. rewrite ChunkerFacts.concat_snoc, app_nil_r. auto.
    + exists buf. auto. }
  destruct Htail as (tail & Htext & Hblank & Hterm).
  exists (concat (Chunker.sentencesOf text)), tail.
  split; [|auto].
  unfold Chunker.splitTextForTTS.
  rewrite ChunkMore.segment_loop_fits.
  - simpl.
    destruct (truthy (trim (concat (Chunker.sentencesOf text)))) eqn:E;
      [reflexivity|].
    apply BlankFacts.blank_allWhite in E, Hblank.
    assert (Hall : BlankFacts.allWhite text).
    { rewrite <- Htext. apply BlankFacts.allWhite_app. auto. }
    apply BlankFacts.blank_allWhite in Hall. congruence.
  - simpl. rewrite <- Htext, length_app in Hfit. lia.
Qed.

(** The statement above at three short sentences and a blank end. *)
Lemma X4_text_within_limit_is_one_chunk_witness :
  exists chunk tail,
    Chunker.splitTextForTTS (lit "One. Two! Three?  ") 300 = [chunk]
    /\ lit "One. Two! Three?  " = chunk ++ tail
    /\ truthy (trim tail) = false
    /\ Chunker.hasTerminator tail = false.
Proof.
  apply (X4_text_within_limit_is_one_chunk (lit "One. Two! Three?  ") 300).
  - vm_compute. discriminate.
  - reflexivity.
Defined.

(** X5.  Chunking is stable: each chunk, given to [splitTextForTTS] again
    with the same limit, comes back as the one chunk it is. *)
Theorem X5_chunk_of_a_chunk_is_the_chunk (text : str) (limit : Z) :
  Forall (fun chunk => Chunker.splitTextForTTS chunk limit = [chunk])
         (Chunker.splitTextForTTS text limit).
Proof.
  rewrite <- GroupFacts.segmentGroups_chunks.
  apply Forall_forall. intros chunk Hin.
  apply in_map_iff in Hin. destruct Hin as (g & <- & Hg).
  destruct (ChunkMore.group_facts text limit g Hg) as [Hnonblank Hbound].
  unfold Chunker.splitTextForTTS.
  rewrite (ResplitFacts.group_resplit text limit g Hg).
  destruct g as [|s [|s' g]].
  - discriminate.
  - simpl in *. rewrite app_nil_r in *.
    destruct (Z.of_nat (length s) >? limit)%Z; simpl; now rewrite Hnonblank.
  - rewrite ChunkMore.segment_loop_fits.
    + simpl. simpl in Hnonblank. now rewrite Hnonblank.
    + simpl. apply Hbound. simpl. lia.
Qed.



Module SpeechMore.
Import Effects Narration.

Lemma allFilled_Some (A : Type) (slots : list (option A)) : forall r,
  allFilled slots = Some r -> slots = map Some r.
Proof.
  induction slots as [|[v|] slots IH]; intros r H; simpl in H.
  - now injection H as <-.
  - destruct (allFilled slots) as [r'|]; [|discriminate].
    injection H as <-. simpl. now rewrite (IH r' eq_refl).
  - discriminate.
Qed.

(** Whatever [Promise.all] gives for fulfilled promises is their values,
    in the order of the promises. *)
Lemma promiseAll_result (A : Type) (values : list A) order r :
  promiseAll (map inr values) order = inr (Some r) -> r = values.
Proof.
  unfold promiseAll. rewrite length_map.
  destruct (NarrationFacts.settle_fulfilled _ values order _
              (NarrationFacts.slotsOk_empty _ values))
    as (slots' & -> & [Hlen Hok] & _).
  simpl. intros [= Hfilled]. apply allFilled_Some in Hfilled. subst slots'.
  apply nth_error_ext. intros i.
  destruct (Hok i) as [H|H]; rewrite nth_error_map in H.
  - destruct (nth_error r i); discriminate.
  - destruct (nth_error r i), (nth_error values i); simpl in H; congruence.
Qed.

(** Without a promise nothing settles. *)
Lemma settle_none (A : Type) (order : list nat) : forall slots,
  settle (@nil (Js A)) slots order = inr slots.
Proof.
  induction order as [|i order IH]; intros slots; simpl; [reflexivity|].
  destruct i; simpl; apply IH.
Qed.

Lemma collect_length (results : list (option Blob)) :
  length (collect results) <= length results.
Proof.
  induction results as [|[b|] results IH]; simpl; lia.
Qed.

(** The artifacts are containers of 24 kHz, one channel, 16 bits, around
    bytes. *)
Definition isWav (blob : Blob) : Prop :=
  exists pcmData,
    blob = pcmToWav pcmData 24000 1 16
    /\ Forall (fun b => 0 <= b < 256)%Z pcmData.

Lemma artifact_isWav speaker atob ip blob :
  artifact speaker atob ip = Some blob -> isWav blob.
Proof.
  unfold artifact.
  destruct (speaker (fst ip) (snd ip)) as [e|[base64Audio|]];
    try discriminate.
  destruct (truthy (trim (snd ip)) && truthy base64Audio);
    [|discriminate].
  destruct (atob base64Audio) as [binaryString|]; [|discriminate].
  simpl. intros [= <-]. eexists. split; [reflexivity|].
  apply Forall_forall. intros b Hb. apply in_map_iff in Hb.
  destruct Hb as (c & <- & _). apply Z.mod_pos_bound. lia.
Qed.

Lemma collect_In (results : list (option Blob)) blob :
  In blob (collect results) -> In (Some blob) results.
Proof.
  induction results as [|[b|] results IH]; simpl; auto.
  intros [->|H]; auto.
Qed.

End SpeechMore.

(** X7.  For a text that is empty or all white space [generateSpeech]
    gives the empty list of artifacts, under every schedule and whatever
    the speech collaborator would do. *)
Theorem X7_blank_text_gives_no_speech
    (speaker : Narration.SpeakerT) (atob : Narration.AtobT)
    (order : list nat) (text : str) :
  truthy (trim text) = false ->
  Narration.generateSpeech speaker atob order text = inr (Some []).
Proof.
  intros Hblank. unfold Narration.generateSpeech.
  assert (Hnone : Chunker.splitTextForTTS text 300 = []).
  { apply BlankFacts.blank_allWhite in Hblank.
    destruct (ChunkMore.chunks_spans text 300) as (spans & Hw & Hk & _).
    pose proof (ChunkMore.chunks_nonblank text 300) as Hn.
    rewrite <- Hw in Hblank. apply ChunkMore.kept_allWhite in Hblank.
    rewrite Hk in Hblank. apply BlankFacts.allWhite_concat in Hblank.
    destruct (Chunker.splitTextForTTS text 300) as [|chunk chunks];
      [reflexivity|].
    inversion Hn as [|? ? Hc _]; inversion Hblank as [|? ? Hw' _]; subst.
    apply BlankFacts.blank_allWhite in Hw'. congruence. }
  rewrite Hnone. cbn [Narration.enumerate length seq combine map].
  unfold Narration.promiseAll. cbn [length repeat].
  rewrite SpeechMore.settle_none. reflexivity.
Qed.

(** The statement above at a blank text and a schedule of three. *)
Lemma X7_blank_text_gives_no_speech_witness :
  Narration.generateSpeech NarrationSamples.thirdFails
    NarrationSamples.bytewise [2; 0; 1] (lit " " ++ [10; 9]%Z)
  = inr (Some []).
Proof.
  apply (X7_blank_text_gives_no_speech NarrationSamples.thirdFails
           NarrationSamples.bytewise [2; 0; 1] (lit " " ++ [10; 9]%Z)).
  reflexivity.
Defined.

(** X8.  Whenever [generateSpeech] gives a list, under any schedule, it is
    the list of the artifacts of the segments whose call succeeded, in the
    order of the segments: there is at most one artifact per chunk, and
    each one is a container of 24000 Hz, one channel and 16 bits around
    the decoded bytes, so 44 bytes longer than them. *)
Theorem X8_speech_result_is_the_artifacts
    (speaker : Narration.SpeakerT) (atob : Narration.AtobT)
    (order : list nat) (text : str) (blobs : list Narration.Blob) :
  Narration.generateSpeech speaker atob order text = inr (Some blobs) ->
  let segments := Narration.enumerate (Chunker.splitTextForTTS text 300) in
  blobs = Narration.collect (map (Narration.artifact speaker atob) segments)
  /\ length blobs <= length (Chunker.splitTextForTTS text 300)
  /\ Forall (fun blob =>
               exists pcmData,
                 blob = Narration.pcmToWav pcmData 24000 1 16
                 /\ Forall (fun b => 0 <= b < 256)%Z pcmData
                 /\ length blob = 44 + length pcmData) blobs.
Proof.
  intros Hres segments.
  assert (Hblobs : blobs = Narration.collect
                             (map (Narration.artifact speaker atob) segments)).
  { unfold Narration.generateSpeech in Hres. fold segments in Hres.
    rewrite NarrationFacts.segmentPromises_fulfilled in Hres.
    destruct (NarrationFacts.promiseAll_never_rejects _
                (map (Narration.artifact speaker atob) segments) order)
      as [r Hr].
    rewrite Hr in Hres. destruct r as [r|]; simpl in Hres; [|discriminate].
    apply SpeechMore.promiseAll_result in Hr. subst r.
    now injection Hres as <-. }
  split; [exact Hblobs|]. split.
  - rewrite Hblobs.
    etransitivity; [apply SpeechMore.collect_length|].
    rewrite length_map. unfold segments, Narration.enumerate.
    rewrite length_combine, length_seq. lia.
  - apply Forall_forall. intros blob Hin. rewrite Hblobs in Hin.
    apply SpeechMore.collect_In in Hin. apply in_map_iff in Hin.
    destruct Hin as (ip & Hip & _).
    destruct (SpeechMore.artifact_isWav _ _ _ _ Hip) as (pcm & -> & Hb).
    exists pcm. repeat split; auto. apply NarrationFacts.pcmToWav_length.
Qed.

(** The statement above at five chunks, the third call failing, the promises settling from the last to the first. *)
Lemma X8_speech_result_is_the_artifacts_witness :
  [Narration.pcmToWav [65%Z] 24000 1 16;
   Narration.pcmToWav [66%Z] 24000 1 16;
   Narration.pcmToWav [68%Z] 24000 1 16;
   Narration.pcmToWav [69%Z] 24000 1 16]
  = Narration.collect
      (map (Narration.artifact NarrationSamples.thirdFails
              NarrationSamples.bytewise)
         (Narration.enumerate
            (Chunker.splitTextForTTS NarrationSamples.fiveSentences 300)))
  /\ 4 <= length (Chunker.splitTextForTTS NarrationSamples.fiveSentences 300).
Proof.
  destruct (X8_speech_result_is_the_artifacts NarrationSamples.thirdFails
              NarrationSamples.bytewise NarrationSamples.lastFirst
              NarrationSamples.fiveSentences
              [Narration.pcmToWav [65%Z] 24000 1 16;
               Narration.pcmToWav [66%Z] 24000 1 16;
               Narration.pcmToWav [68%Z] 24000 1 16;
               Narration.pcmToWav [69%Z] 24000 1 16]) as (H1 & H2 & _).
  - vm_compute. reflexivity.
  - split; [exact H1|exact H2].
Defined.

(* ===================================================================== *)
(** * Properties of the text services                                    *)
(* ===================================================================== *)

Module ArticleFacts.
Import Effects Article JSFacts BlankFacts.

Lemma trimStart_lead ws c rest :
  allWhite ws -> isWhiteSpace c = false ->
  trimStart (ws ++ c :: rest) = c :: rest.
Proof.
  intros Hws Hc. induction Hws as [|w ws Hw _ IH]; simpl.
  - now rewrite Hc.
  - now rewrite Hw.
Qed.

Lemma stripPrefix_same p r : stripPrefix p (p ++ r) = Some r.
Proof. now apply stripPrefix_app. Qed.

Lemma stripPrefix_both a : forall b s,
  stripPrefix (a ++ b) (a ++ s) = stripPrefix b s.
Proof.
  induction a as [|x a IH]; intros b s; simpl; [reflexivity|].
  now rewrite eqc_refl.
Qed.

(** An opening is removed with the white space behind it. *)
Lemma dropOpening_found opening ws c rest :
  allWhite ws -> isWhiteSpace c = false ->
  dropOpening opening (opening ++ ws ++ c :: rest) = c :: rest.
Proof.
  intros Hws Hc. unfold dropOpening. rewrite stripPrefix_same.
  now apply trimStart_lead.
Qed.

(** A text in angle brackets has no opening to remove. *)
Lemma dropOpening_markup opening rest :
  opening = fence \/ opening = fenceHtml ->
  dropOpening opening (Anchor.lt :: rest) = Anchor.lt :: rest.
Proof. intros [->| ->]; reflexivity. Qed.

(** The fence alone is not the fence of [html]. *)
Lemma dropOpening_plain_fence ws rest :
  allWhite ws ->
  dropOpening fenceHtml (fence ++ ws ++ Anchor.lt :: rest)
  = fence ++ ws ++ Anchor.lt :: rest.
Proof.
  intros Hws. unfold dropOpening.
  change fenceHtml with (fence ++ 104%Z :: lit "tml").
  rewrite stripPrefix_both.
  destruct Hws as [|w ws Hw _]; [reflexivity|].
  cbn [app stripPrefix]. destruct (eqc 104%Z w) eqn:E; [|reflexivity].
  apply eqc_eq in E. subst w. vm_compute in Hw. discriminate.
Qed.

Lemma dropClosing_found body : dropClosing (body ++ fence) = body.
Proof.
  unfold dropClosing. rewrite rev_app_distr, stripPrefix_same.
  apply rev_involutive.
Qed.

Lemma dropClosing_other body c :
  c <> 96%Z -> dropClosing (body ++ [c]) = body ++ [c].
Proof.
  intros Hc. unfold dropClosing. rewrite rev_app_distr.
  change (rev fence) with (96%Z :: lit "``").
  cbn [rev app stripPrefix]. destruct (eqc 96%Z c) eqn:E; [|reflexivity].
  apply eqc_eq in E. congruence.
Qed.

Lemma cleanFences_wrapped opening ws rest :
  opening = fence \/ opening = fenceHtml ->
  allWhite ws ->
  cleanFences (opening ++ ws ++ Anchor.lt :: rest)
  = dropClosing (Anchor.lt :: rest).
Proof.
  intros [->| ->] Hws; unfold cleanFences.
  - rewrite (dropOpening_plain_fence _ _ Hws).
    now rewrite (dropOpening_found fence ws Anchor.lt rest Hws eq_refl).
  - rewrite (dropOpening_found fenceHtml ws Anchor.lt rest Hws eq_refl).
    reflexivity.
Qed.

Lemma cleanFences_unwrapped opening ws rest :
  opening = fence \/ opening = fenceHtml ->
  allWhite ws ->
  cleanFences (opening ++ ws ++ Anchor.lt :: rest ++ fence)
  = Anchor.lt :: rest.
Proof.
  intros Hopening Hws. rewrite cleanFences_wrapped; auto.
  apply (dropClosing_found (Anchor.lt :: rest)).
Qed.

Lemma generateArticle_cases writer topic titleInstructions
    articleInstructions :
  generateArticle writer topic titleInstructions articleInstructions
  = inr match writer topic titleInstructions articleInstructions with
        | inl _ => failurePage
        | inr None => []
        | inr (Some text) => cleanFences text
        end.
Proof.
  unfold generateArticle.
  destruct (writer topic titleInstructions articleInstructions)
    as [e|[text|]]; reflexivity.
Qed.

End ArticleFacts.

(** X9.  The cleaning of [generateArticle] unwraps a reply given as a code
    block: for a page that starts with [<], an opening fence (with or
    without [html]) and the white space behind it are removed, and so is
    a fence that ends the text; a page that is not wrapped is only
    relieved of such an end. *)
Theorem X9_fenced_page_is_unwrapped (ws rest : str) :
  BlankFacts.allWhite ws ->
  Article.cleanFences
    (Article.fenceHtml ++ ws ++ Anchor.lt :: rest ++ Article.fence)
  = Anchor.lt :: rest
  /\ Article.cleanFences
       (Article.fence ++ ws ++ Anchor.lt :: rest ++ Article.fence)
     = Anchor.lt :: rest
  /\ Article.cleanFences (Anchor.lt :: rest ++ Article.fence)
     = Anchor.lt :: rest.
Proof.
  intros Hws. split; [|split].
  - rewrite ArticleFacts.cleanFences_wrapped; auto.
    apply (ArticleFacts.dropClosing_found (Anchor.lt :: rest)).
  - rewrite ArticleFacts.cleanFences_wrapped; auto.
    apply (ArticleFacts.dropClosing_found (Anchor.lt :: rest)).
  - apply (ArticleFacts.dropClosing_found (Anchor.lt :: rest)).
Qed.

(** The statement above at a page of one heading behind a line break. *)
Lemma X9_fenced_page_is_unwrapped_witness :
  Article.cleanFences
    (Article.fenceHtml ++ [10%Z] ++ Anchor.lt :: lit "h1>T</h1>"
       ++ Article.fence)
  = Anchor.lt :: lit "h1>T</h1>"
  /\ Article.cleanFences
       (Article.fence ++ [10%Z] ++ Anchor.lt :: lit "h1>T</h1>"
          ++ Article.fence)
     = Anchor.lt :: lit "h1>T</h1>"
  /\ Article.cleanFences (Anchor.lt :: lit "h1>T</h1>" ++ Article.fence)
     = Anchor.lt :: lit "h1>T</h1>".
Proof.
  apply (X9_fenced_page_is_unwrapped [10%Z] (lit "h1>T</h1>")).
  repeat constructor.
Defined.

(** X10.  Only a fence that is the very end of the reply is removed.  When
    the last code unit of the reply is not a backquote, all that follows
    the opening stays: a closing fence followed by a line break is part of
    the page that [generateArticle] returns. *)
Theorem X10_fence_before_the_end_stays (ws rest : str) (c : char) :
  BlankFacts.allWhite ws -> c <> 96%Z ->
  Article.cleanFences (Article.fenceHtml ++ ws ++ Anchor.lt :: rest ++ [c])
  = Anchor.lt :: rest ++ [c]
  /\ Article.cleanFences (Article.fence ++ ws ++ Anchor.lt :: rest ++ [c])
     = Anchor.lt :: rest ++ [c]
  /\ Article.cleanFences (Anchor.lt :: rest ++ [c])
     = Anchor.lt :: rest ++ [c].
Proof.
  intros Hws Hc. split; [|split].
  - rewrite ArticleFacts.cleanFences_wrapped; auto.
    now apply (ArticleFacts.dropClosing_other (Anchor.lt :: rest)).
  - rewrite ArticleFacts.cleanFences_wrapped; auto.
    now apply (ArticleFacts.dropClosing_other (Anchor.lt :: rest)).
  - now apply (ArticleFacts.dropClosing_other (Anchor.lt :: rest)).
Qed.

(** The statement above at a page whose closing fence is followed by a line break. *)
Lemma X10_fence_before_the_end_stays_witness :
  Article.cleanFences
    (Article.fenceHtml ++ [10%Z] ++ Anchor.lt
       :: (lit "p>a</p>" ++ [10%Z] ++ Article.fence) ++ [10%Z])
  = Anchor.lt :: (lit "p>a</p>" ++ [10%Z] ++ Article.fence) ++ [10%Z].
Proof.
  apply (X10_fence_before_the_end_stays [10%Z]
           (lit "p>a</p>" ++ [10%Z] ++ Article.fence) 10%Z).
  - repeat constructor.
  - discriminate.
Defined.

(** X11.  [generateArticle] never raises: every failure of the request
    gives the failure page, a response without text gives the empty
    page, and a page that comes wrapped in a code block is returned
    unwrapped. *)
Theorem X11_generateArticle_always_gives_a_page
    (writer : Article.WriterT)
    (topic titleInstructions articleInstructions : str) :
  let response := writer topic titleInstructions articleInstructions in
  let result :=
    Article.generateArticle writer topic titleInstructions
      articleInstructions in
  (exists page, result = inr page)
  /\ (forall e, response = inl e -> result = inr Article.failurePage)
  /\ (response = inr None -> result = inr [])
  /\ (forall ws rest,
        BlankFacts.allWhite ws ->
        response
        = inr (Some (Article.fenceHtml ++ ws ++ Anchor.lt :: rest
                       ++ Article.fence)) ->
        result = inr (Anchor.lt :: rest)).
Proof.
  intros response result. subst response result.
  rewrite ArticleFacts.generateArticle_cases.
  destruct (writer topic titleInstructions articleInstructions)
    as [e|[text|]].
  - repeat split; eauto; discriminate.
  - repeat split; eauto; try discriminate.
    intros ws rest Hws [= ->]. f_equal.
    exact (ArticleFacts.cleanFences_unwrapped Article.fenceHtml ws rest
             (or_intror eq_refl) Hws).
  - repeat split; eauto; discriminate.
Qed.

(** X12.  [rewriteTextSegment] never raises and never gives less than it
    was given: the result is the trimmed reply when this is not empty, and
    the original text in every other case (a failed request, a response
    without text, a blank reply). *)
Theorem X12_rewrite_falls_back_to_the_original
    (rewriter : Article.RewriterT) (originalText context : str)
    (instruction : option str) :
  let response := rewriter originalText context instruction in
  exists result,
    Article.rewriteTextSegment rewriter originalText context instruction
    = inr result
    /\ (result = originalText
        \/ exists reply,
             response = inr (Some reply)
             /\ result = trim reply /\ truthy result = true)
    /\ (forall e, response = inl e -> result = originalText)
    /\ (response = inr None -> result = originalText)
    /\ (forall reply, response = inr (Some reply) ->
          truthy (trim reply) = false -> result = originalText)
    /\ (truthy originalText = true -> truthy result = true).
Proof.
  intros response. subst response. unfold Article.rewriteTextSegment.
  destruct (rewriter originalText context instruction)
    as [e|[reply|]]; simpl.
  - exists originalText. repeat split; auto; discriminate.
  - destruct (truthy (trim reply)) eqn:E.
    + exists (trim reply). repeat split; auto; try discriminate.
      * right. exists reply. auto.
      * intros r [= <-]. congruence.
    + exists originalText. repeat split; auto; discriminate.
  - exists originalText. repeat split; auto; discriminate.
Qed.

(* ===================================================================== *)
(** * More on the formatter: what [walk] changes and what it keeps       *)
(* ===================================================================== *)

Module DomFacts.
Import WeChat WeChatFacts ResetFacts.

(** The rule of a tag name in lower case: the text given to [cssText]. *)
Definition ruleOf (tagName : str) : option Style :=
  if isTag tagName "h2" then Some h2Css
  else if isTag tagName "h3" then Some h3Css
  else if isTag tagName "p" then Some pCss
  else if isTag tagName "img" then Some imgCss
  else if isTag tagName "strong" || isTag tagName "b" then Some strongCss
  else if isTag tagName "em" then Some emCss
  else if isTag tagName "u" then Some uCss
  else if isTag tagName "ul" || isTag tagName "ol" then Some listCss
  else if isTag tagName "li" then Some liCss
  else None.

Definition styleRule (tagName : str) (style : Style) : Style :=
  match ruleOf (toLowerCase tagName) with
  | Some css => css
  | None => setProperty style boxSizing borderBox
  end.

Definition newAttributes (tagName : str) (attributes : list (str * str))
  : list (str * str) :=
  if isTag (toLowerCase tagName) "img" then
    removeAttribute (removeAttribute attributes (lit "width")) (lit "height")
  else attributes.

Definition toParentOf (parentTagName : option str) (tagName : str)
  : option Style :=
  if isTag (toLowerCase tagName) "img" then
    match parentTagName with
    | Some parent =>
        if isTag (toLowerCase parent) "figure" then Some figureCss else None
    | None => None
    end
  else None.

Definition tagOf (n : node) : str :=
  match n with
  | Text _ => []
  | Element tagName _ _ _ => tagName
  end.

Definition isImg (n : node) : bool :=
  match n with
  | Text _ => false
  | Element tagName _ _ _ => isTag (toLowerCase tagName) "img"
  end.

(** The style of an element after its children have been walked. *)
Definition childStyle (tagName : str) (children : list node) (style : Style)
  : Style :=
  if isTag (toLowerCase tagName) "figure" && existsb isImg children
  then figureCss else style.

(** The tree without the styles, and without [width] and [height] on the
    images. *)
Fixpoint shape (n : node) : node :=
  match n with
  | Text data => Text data
  | Element tagName attributes _ children =>
      Element tagName (newAttributes tagName attributes) []
        (map shape children)
  end.

Ltac by_tag tag :=
  repeat match goal with
         | |- context [eqs tag (lit ?s)] =>
             destruct (eqs_spec tag (lit s)) as [->|?];
             [try reflexivity|]
         end.

Lemma processNode_eq parentTagName tagName attributes style :
  processNode parentTagName tagName attributes style
  = (newAttributes tagName attributes, styleRule tagName style,
     toParentOf parentTagName tagName).
Proof.
  unfold processNode, newAttributes, styleRule, ruleOf, toParentOf, isTag.
  generalize (toLowerCase tagName). intros tag.
  by_tag tag. reflexivity.
Qed.


Lemma walk_toParentOf parentTagName n :
  snd (walk parentTagName n)
  = match parentTagName with
    | Some parent =>
        if isImg n && isTag (toLowerCase parent) "figure"
        then Some figureCss else None
    | None => None
    end.
Proof.
  destruct n as [data|tagName attributes style children].
  - now destruct parentTagName.
  - rewrite walk_Element, processNode_eq.
    destruct (walkChildren tagName children _) as [children' style'].
    cbn [snd isImg]. unfold toParentOf.
    destruct parentTagName as [parent|];
      destruct (isTag (toLowerCase tagName) "img"); try reflexivity.
Qed.

Lemma walkChildren_eq tagName children : forall style,
  walkChildren tagName children style
  = (map (fun child => fst (walk (Some tagName) child)) children,
     childStyle tagName children style).
Proof.
  unfold childStyle.
  induction children as [|child rest IH]; intros style.
  - cbn [walkChildren map existsb]. now rewrite andb_false_r.
  - cbn [walkChildren map existsb].
    pose proof (walk_toParentOf (Some tagName) child) as Hto.
    destruct (walk (Some tagName) child) as [child' fromChild].
    cbn [fst snd] in *. subst fromChild. rewrite IH.
    destruct (isImg child), (isTag (toLowerCase tagName) "figure"),
      (existsb isImg rest); reflexivity.
Qed.

(** [walk] on an element, in one equation. *)
Lemma walk_eq parentTagName tagName attributes style children :
  walk parentTagName (Element tagName attributes style children)
  = (Element tagName (newAttributes tagName attributes)
       (childStyle tagName children (styleRule tagName style))
       (map (fun child => fst (walk (Some tagName) child)) children),
     toParentOf parentTagName tagName).
Proof.
  now rewrite walk_Element, processNode_eq, walkChildren_eq.
Qed.

Lemma filter_filter (A : Type) (f : A -> bool) (l : list A) :
  filter f (filter f l) = filter f l.
Proof.
  induction l as [|x l IH]; simpl; [reflexivity|].
  destruct (f x) eqn:E; simpl; [rewrite E|]; now rewrite ?IH.
Qed.

Lemma filter_swap (A : Type) (f g : A -> bool) (l : list A) :
  filter f (filter g l) = filter g (filter f l).
Proof.
  induction l as [|x l IH]; simpl; [reflexivity|].
  destruct (f x) eqn:Ef, (g x) eqn:Eg; simpl;
    rewrite ?Ef, ?Eg, ?IH; reflexivity.
Qed.

Lemma filter_pair_twice (A : Type) (f g : A -> bool) (l : list A) :
  filter g (filter f (filter g (filter f l))) = filter g (filter f l).
Proof.
  rewrite (filter_swap A f g (filter f l)).
  now rewrite !filter_filter.
Qed.

Lemma newAttributes_twice tagName attributes :
  newAttributes tagName (newAttributes tagName attributes)
  = newAttributes tagName attributes.
Proof.
  unfold newAttributes, removeAttribute.
  destruct (isTag (toLowerCase tagName) "img"); [|reflexivity].
  apply filter_pair_twice.
Qed.





Lemma walk_tagOf parentTagName n :
  tagOf (fst (walk parentTagName n)) = tagOf n.
Proof.
  destruct n as [data|tagName attributes style children]; [reflexivity|].
  now rewrite walk_eq.
Qed.



End DomFacts.

(** X13.  [walk] changes styles, and the [width] and [height] of images,
    and nothing else: the text nodes, the tag names, the nesting and the
    order of the nodes and every other attribute are those of the input.
    So the formatted body is the container around the same content. *)
Theorem X13_walk_keeps_the_content (parentTagName : option str)
    (n : WeChat.node) (bodyChildren : list WeChat.node) :
  DomFacts.shape (fst (WeChat.walk parentTagName n)) = DomFacts.shape n
  /\ DomFacts.shape (WeChat.formatDom bodyChildren)
     = WeChat.Element (lit "section") [WeChat.dataTool] []
         (map DomFacts.shape bodyChildren).
Proof.
  assert (H : forall n parentTagName,
            DomFacts.shape (fst (WeChat.walk parentTagName n))
            = DomFacts.shape n).
  { clear. intros n.
    induction n as [data|tagName attributes style children IH]
      using WeChatFacts.node_induction; intros parentTagName;
      [reflexivity|].
    rewrite DomFacts.walk_eq. cbn [fst DomFacts.shape].
    rewrite DomFacts.newAttributes_twice, map_map. f_equal.
    apply map_ext_Forall.
    apply (Forall_impl _ (fun child Hchild => Hchild (Some tagName)) IH). }
  split; [apply H|].
  unfold WeChat.formatDom. rewrite H. reflexivity.
Qed.



(* ===================================================================== *)
(** * Global replacements of a literal                                   *)
(* ===================================================================== *)

Module ReplaceFacts.
Import WeChat JSFacts.

(** The word [q] occurs nowhere in [s]. *)
Definition absent (q s : str) : Prop :=
  forall k, stripPrefix q (skipn k s) = None.

(** No code unit of [w] is [c0]. *)
Definition free (c0 : char) (w : str) : bool :=
  forallb (fun c => negb (eqc c0 c)) w.

(** The two words differ at a place that both have. *)
Fixpoint clash (a b : str) : bool :=
  match a, b with
  | x :: a', y :: b' => negb (eqc x y) || clash a' b'
  | _, _ => false
  end.

Lemma absent_includes q s : absent q s -> includes s q = false.
Proof.
  intros Habs. destruct (includes s q) eqn:E; [|reflexivity].
  apply includes_true in E. destruct E as [i Hi].
  destruct (indexOf_spec q s i Hi) as (before & after & -> & <- & _).
  specialize (Habs (length before)).
  rewrite skipn_app, skipn_all, Nat.sub_diag in Habs. simpl in Habs.
  assert (H : stripPrefix q (q ++ after) = Some after)
    by now apply stripPrefix_app.
  congruence.
Qed.

Lemma includes_absent q s : includes s q = false -> absent q s.
Proof.
  intros Hinc k. destruct (stripPrefix q (skipn k s)) as [r|] eqn:E;
    [|reflexivity].
  apply stripPrefix_app in E.
  unfold includes in Hinc.
  destruct (indexOf q s) as [i|] eqn:Hi; [discriminate|].
  exfalso. apply (indexOf_none q s (firstn k s) r Hi).
  now rewrite <- E, firstn_skipn.
Qed.

Lemma absent_nil q c : absent (c :: q) [].
Proof. intros k. now rewrite skipn_nil. Qed.

Lemma absent_cons q c s :
  stripPrefix q (c :: s) = None -> absent q s -> absent q (c :: s).
Proof. intros H0 Hs [|k]; [exact H0|apply Hs]. Qed.

Lemma absent_tail q c s : absent q (c :: s) -> absent q s.
Proof. intros H k. apply (H (S k)). Qed.

Lemma absent_skipn q s n : absent q s -> absent q (skipn n s).
Proof. intros H k. rewrite skipn_skipn. apply H. Qed.

Lemma replaceAllFrom_skip pattern replacement s : forall skip,
  replaceAllFrom skip pattern replacement s
  = replaceAll pattern replacement (skipn skip s).
Proof.
  unfold replaceAll.
  induction s as [|c s IH]; intros [|skip]; try reflexivity.
  cbn [replaceAllFrom skipn]. apply IH.
Qed.

Lemma replaceAll_nil pattern replacement :
  replaceAll pattern replacement [] = [].
Proof. reflexivity. Qed.

(** An occurrence at the head is replaced; the scan goes on behind it. *)
Lemma replaceAll_match x pattern replacement s rest :
  stripPrefix (x :: pattern) s = Some rest ->
  replaceAll (x :: pattern) replacement s
  = replacement ++ replaceAll (x :: pattern) replacement rest.
Proof.
  intros H. destruct s as [|c s]; [discriminate|].
  unfold replaceAll at 1. cbn [replaceAllFrom]. rewrite H.
  rewrite replaceAllFrom_skip. f_equal. f_equal.
  apply stripPrefix_app in H. injection H as _ ->.
  replace (length (x :: pattern) - 1) with (length pattern)
    by (simpl; lia).
  now rewrite skipn_app, skipn_all, Nat.sub_diag.
Qed.

Lemma replaceAll_miss pattern replacement c s :
  stripPrefix pattern (c :: s) = None ->
  replaceAll pattern replacement (c :: s)
  = c :: replaceAll pattern replacement s.
Proof.
  intros H. destruct pattern as [|x pattern]; [discriminate|].
  unfold replaceAll. cbn [replaceAllFrom].
  match goal with
  | |- context [match ?X with Some _ => _ | None => _ end] =>
      change X with (stripPrefix (x :: pattern) (c :: s))
  end.
  now rewrite H.
Qed.

(** Where the pattern does not occur nothing is replaced. *)
Lemma replaceAll_absent pattern replacement s :
  absent pattern s -> replaceAll pattern replacement s = s.
Proof.
  induction s as [|c s IH]; intros Habs; [reflexivity|].
  rewrite replaceAll_miss by apply (Habs 0).
  f_equal. apply IH. now apply absent_tail with c.
Qed.

(** A stretch without the first code unit of the pattern is copied. *)
Lemma replaceAll_free_run c0 pattern replacement x : forall t,
  free c0 x = true ->
  replaceAll (c0 :: pattern) replacement (x ++ t)
  = x ++ replaceAll (c0 :: pattern) replacement t.
Proof.
  induction x as [|y x IH]; intros t Hx; [reflexivity|].
  simpl in Hx. apply andb_prop in Hx. destruct Hx as [Hy Hx].
  cbn [app]. rewrite replaceAll_miss.
  - now rewrite IH.
  - cbn [stripPrefix]. apply negb_true_iff in Hy. now rewrite Hy.
Qed.

Lemma clash_strip a : forall b t,
  clash a b = true -> stripPrefix a (b ++ t) = None.
Proof.
  induction a as [|x a IH]; intros [|y b] t H; simpl in *;
    try discriminate.
  destruct (eqc x y); simpl in *; auto.
Qed.

Lemma absent_free_app c0 q w s :
  free c0 w = true -> absent (c0 :: q) s -> absent (c0 :: q) (w ++ s).
Proof.
  intros Hw Hs. induction w as [|y w IH]; [exact Hs|].
  simpl in Hw. apply andb_prop in Hw. destruct Hw as [Hy Hw].
  apply absent_cons; [|auto].
  cbn [app stripPrefix]. apply negb_true_iff in Hy. now rewrite Hy.
Qed.

Section Absence.
Variable c0 : char.
Variables q p r : str.
Hypothesis q_free : free c0 q = true.
Hypothesis r_free : free c0 r = true.
Hypothesis q_r_clash : clash q r = true.

(** A word without [c0] that is read at the head of the result is read at
    the head of the text. *)
Lemma free_prefix_kept w : forall s t,
  free c0 w = true ->
  stripPrefix w (replaceAll (c0 :: p) (c0 :: r) s) = Some t ->
  exists t', stripPrefix w s = Some t'.
Proof.
  induction w as [|x w IH]; intros s t Hw H; [simpl; eauto|].
  simpl in Hw. apply andb_prop in Hw. destruct Hw as [Hx Hw].
  apply negb_true_iff in Hx.
  destruct s as [|d s]; [discriminate|].
  destruct (stripPrefix (c0 :: p) (d :: s)) as [rest|] eqn:E.
  - rewrite (replaceAll_match _ _ _ _ _ E) in H. cbn [app stripPrefix] in H.
    assert (Hx' : eqc x c0 = false).
    { unfold eqc in *. now rewrite Z.eqb_sym. }
    now rewrite Hx' in H.
  - rewrite (replaceAll_miss _ _ _ _ E) in H. cbn [stripPrefix] in *.
    destruct (eqc x d); [|discriminate]. eapply IH; eauto.
Qed.

(** When every occurrence of [c0 q] in the text is one of the pattern
    [c0 p], the result of the replacement by [c0 r] has none. *)
Lemma replaceAll_removes : forall n s,
  length s <= n ->
  (forall k, stripPrefix (c0 :: q) (skipn k s) <> None ->
             stripPrefix (c0 :: p) (skipn k s) <> None) ->
  absent (c0 :: q) (replaceAll (c0 :: p) (c0 :: r) s).
Proof.
  induction n as [|n IH]; intros s Hlen Hocc.
  - destruct s; [apply absent_nil|simpl in Hlen; lia].
  - destruct s as [|c s]; [apply absent_nil|].
    destruct (stripPrefix (c0 :: p) (c :: s)) as [rest|] eqn:E.
    + rewrite (replaceAll_match _ _ _ _ _ E).
      pose proof E as Hs. apply stripPrefix_app in Hs.
      assert (Hrest : absent (c0 :: q)
                        (replaceAll (c0 :: p) (c0 :: r) rest)).
      { apply IH.
        - apply (f_equal (@length char)) in Hs.
          rewrite length_app in Hs. simpl in Hs, Hlen. lia.
        - intros k Hk. specialize (Hocc (k + length (c0 :: p))).
          rewrite Hs in Hocc.
          rewrite <- skipn_skipn, skipn_app, skipn_all, Nat.sub_diag in Hocc.
          apply Hocc, Hk. }
      cbn [app]. apply absent_cons.
      * cbn [stripPrefix]. rewrite eqc_refl. now apply clash_strip.
      * now apply absent_free_app.
    + rewrite (replaceAll_miss _ _ _ _ E).
      assert (Hrest : absent (c0 :: q) (replaceAll (c0 :: p) (c0 :: r) s)).
      { apply IH; [simpl in Hlen; lia|].
        intros k. apply (Hocc (S k)). }
      apply absent_cons; [|exact Hrest].
      cbn [stripPrefix]. destruct (eqc c0 c) eqn:Hc; [|reflexivity].
      destruct (stripPrefix q (replaceAll (c0 :: p) (c0 :: r) s))
        as [t|] eqn:Hq; [|reflexivity].
      destruct (free_prefix_kept q s t q_free Hq) as [t' Ht'].
      exfalso. apply (Hocc 0); [|exact E].
      cbn [skipn stripPrefix]. rewrite Hc, Ht'. discriminate.
Qed.

(** The pattern itself is gone after its replacement. *)
Lemma replaceAll_removes_pattern s :
  q = p -> absent (c0 :: q) (replaceAll (c0 :: p) (c0 :: r) s).
Proof.
  intros Hqp. apply (replaceAll_removes (length s)); [lia|].
  intros k Hk. now rewrite <- Hqp.
Qed.

(** A word that was not there is not there afterwards. *)
Lemma replaceAll_keeps_absent s :
  absent (c0 :: q) s -> absent (c0 :: q) (replaceAll (c0 :: p) (c0 :: r) s).
Proof.
  intros Habs. apply (replaceAll_removes (length s)); [lia|].
  intros k Hk. now rewrite Habs in Hk.
Qed.

End Absence.

End ReplaceFacts.

(** X16.  The text that [formatHtmlForWeChat] returns contains neither
    [<figure] nor [</figure>], whatever the document and whatever the
    serializer of the platform writes: the second replacement cannot put
    back what the first one has removed. *)
Theorem X16_no_figure_tag_in_the_output
    (parseBody : str -> list WeChat.node)
    (innerHTML : list WeChat.node -> str) (html : str) :
  let formatted := WeChat.formatHtmlForWeChat parseBody innerHTML html in
  includes formatted (lit "<figure") = false
  /\ includes formatted (lit "</figure>") = false.
Proof.
  intros formatted. subst formatted. unfold WeChat.formatHtmlForWeChat.
  cbv zeta.
  generalize (innerHTML [WeChat.formatDom (parseBody html)]).
  intros formattedHtml. split; apply ReplaceFacts.absent_includes.
  - apply (ReplaceFacts.replaceAll_keeps_absent 60%Z (lit "figure")
             (lit "/figure>") (lit "/p>") eq_refl eq_refl eq_refl).
    apply (ReplaceFacts.replaceAll_removes_pattern 60%Z (lit "figure")
             (lit "figure") (lit "p") eq_refl eq_refl eq_refl).
    reflexivity.
  - apply (ReplaceFacts.replaceAll_removes_pattern 60%Z (lit "/figure>")
             (lit "/figure>") (lit "/p>") eq_refl eq_refl eq_refl).
    reflexivity.
Qed.

(* ===================================================================== *)
(** * Properties of the first formatter                                  *)
(* ===================================================================== *)

Module LegacyFacts.
Import WeChat JSFacts ReplaceFacts Legacy.

(** The rule can neither leave nor make an occurrence of [q]: it starts,
    as [q] and its own replacement do, with a code unit that comes back
    neither in [q] nor in the replacement, and the replacement differs
    from [q] at a place that both have. *)
Definition compatible (q : str) (rule : str * str) : bool :=
  match q, fst rule, snd rule with
  | c0 :: q', c1 :: _, c2 :: r' =>
      eqc c0 c1 && eqc c0 c2 && free c0 q' && free c0 r' && clash q' r'
  | _, _, _ => false
  end.

Lemma applyRule_keeps_absent q rule s :
  compatible q rule = true ->
  absent q s -> absent q (applyRule s rule).
Proof.
  destruct rule as [p r]. unfold compatible, applyRule. cbn [fst snd].
  destruct q as [|c0 q'], p as [|c1 p'], r as [|c2 r']; try discriminate.
  intros H. repeat (apply andb_prop in H; destruct H as [H ?]).
  apply eqc_eq in H. subst c1.
  match goal with Hc : eqc c0 c2 = true |- _ => apply eqc_eq in Hc; subst c2 end.
  now apply replaceAll_keeps_absent.
Qed.

Lemma applyRule_removes rule s :
  compatible (fst rule) rule = true ->
  absent (fst rule) (applyRule s rule).
Proof.
  destruct rule as [p r]. unfold compatible, applyRule. cbn [fst snd].
  destruct p as [|c0 p'], r as [|c2 r']; try discriminate.
  intros H. repeat (apply andb_prop in H; destruct H as [H ?]).
  match goal with Hc : eqc c0 c2 = true |- _ => apply eqc_eq in Hc; subst c2 end.
  now apply replaceAll_removes_pattern.
Qed.

Lemma rules_keep_absent q : forall todo s,
  forallb (compatible q) todo = true ->
  absent q s -> absent q (fold_left applyRule todo s).
Proof.
  induction todo as [|rule todo IH]; intros s Hall Hs; [exact Hs|].
  simpl in Hall. apply andb_prop in Hall. destruct Hall as [Hrule Hall].
  cbn [fold_left]. apply IH; [exact Hall|].
  now apply applyRule_keeps_absent.
Qed.

Lemma rules_remove rule : forall todo s,
  In rule todo ->
  forallb (compatible (fst rule)) todo = true ->
  absent (fst rule) (fold_left applyRule todo s).
Proof.
  induction todo as [|first todo IH]; intros s Hin Hall; [destruct Hin|].
  simpl in Hall. apply andb_prop in Hall. destruct Hall as [Hfirst Hall].
  cbn [fold_left]. destruct Hin as [->|Hin].
  - apply rules_keep_absent; [exact Hall|].
    now apply applyRule_removes.
  - now apply IH.
Qed.

(** Every rule is compatible with every pattern of the list. *)
Lemma rules_compatible :
  forallb (fun rule => forallb (compatible (fst rule)) rules) rules = true.
Proof. vm_compute. reflexivity. Qed.

Lemma rules_without_effect : forall todo s,
  Forall (fun rule => absent (fst rule) s) todo ->
  fold_left applyRule todo s = s.
Proof.
  induction todo as [|rule todo IH]; intros s Hall; [reflexivity|].
  inversion Hall as [|? ? Hrule Hrest]; subst.
  cbn [fold_left]. unfold applyRule at 2.
  rewrite (replaceAll_absent _ _ _ Hrule). now apply IH.
Qed.

Lemma formatted_absent html :
  Forall (fun rule => absent (fst rule) (formatHtmlForWeChat html)) rules.
Proof.
  apply Forall_forall. intros rule Hin.
  apply rules_remove; [exact Hin|].
  pose proof rules_compatible as H. rewrite forallb_forall in H.
  now apply H.
Qed.

(** A rule passes over a text that starts like its pattern but goes on
    otherwise, up to the next [<]. *)
Lemma rule_passes rule p' y tail :
  fst rule = Anchor.lt :: p' ->
  free Anchor.lt y = true ->
  stripPrefix p' (y ++ tail) = None ->
  replaceAll (Anchor.lt :: p') (snd rule) tail = tail ->
  applyRule (Anchor.lt :: y ++ tail) rule = Anchor.lt :: y ++ tail.
Proof.
  destruct rule as [p r]. cbn [fst snd]. intros -> Hy Hmiss Htail.
  unfold applyRule. cbn [fst snd]. rewrite replaceAll_miss.
  - now rewrite (replaceAll_free_run _ _ _ _ _ Hy), Htail.
  - cbn [stripPrefix]. now rewrite eqc_refl.
Qed.

End LegacyFacts.

(** X17.  The first formatter leaves none of the nine opening tags
    without a style: no pattern of its rules occurs in the result, no
    later rule brings back what an earlier one has replaced, and
    formatting the result again changes nothing. *)
Theorem X17_no_bare_tag_is_left (html : str) :
  Forall (fun rule =>
            includes (Legacy.formatHtmlForWeChat html) (fst rule) = false)
         Legacy.rules
  /\ Legacy.formatHtmlForWeChat (Legacy.formatHtmlForWeChat html)
     = Legacy.formatHtmlForWeChat html.
Proof.
  pose proof (LegacyFacts.formatted_absent html) as Habs. split.
  - apply (Forall_impl _ (fun rule => @ReplaceFacts.absent_includes _ _) Habs).
  - now apply LegacyFacts.rules_without_effect.
Qed.

(** X18.  The first formatter rewrites the nine opening tags in their
    bare form only: a document in which none of them occurs (its tags
    have attributes, or are written in upper case, or are other tags) is
    returned as it is. *)
Theorem X18_other_documents_are_unchanged (html : str) :
  Forall (fun rule => includes html (fst rule) = false) Legacy.rules ->
  Legacy.formatHtmlForWeChat html = html.
Proof.
  intros Hnone. apply LegacyFacts.rules_without_effect.
  apply (Forall_impl _ (fun rule => @ReplaceFacts.includes_absent _ _) Hnone).
Qed.

(** The statement above at a paragraph with a class, an upper-case paragraph and an emphasis. *)
Lemma X18_other_documents_are_unchanged_witness :
  Legacy.formatHtmlForWeChat (lit "<p class=a>x</p><P>y</P><em>z</em>")
  = lit "<p class=a>x</p><P>y</P><em>z</em>".
Proof.
  apply (X18_other_documents_are_unchanged
           (lit "<p class=a>x</p><P>y</P><em>z</em>")).
  repeat constructor.
Defined.

(** X19.  The first formatter replaces the opening tag [<b>] by an opening
    [<strong>] with a style and never looks at closing tags: the text of a
    bold passage comes back between an opening [<strong ...>] and the
    closing [</b>] it came with. *)
Theorem X19_bold_is_opened_as_strong_closed_as_b (x : str) :
  ReplaceFacts.free Anchor.lt x = true ->
  Legacy.formatHtmlForWeChat (lit "<b>" ++ x ++ lit "</b>")
  = Legacy.styled "strong" "color: #07c160; font-weight: bold;"
    ++ x ++ lit "</b>".
Proof.
  intros Hx.
  assert (Hfree : forall a, ReplaceFacts.free Anchor.lt a = true ->
                            ReplaceFacts.free Anchor.lt (a ++ x) = true).
  { intros a Ha. unfold ReplaceFacts.free in *.
    now rewrite forallb_app, Ha, Hx. }
  unfold Legacy.formatHtmlForWeChat, Legacy.rules. cbn [fold_left].
  change (lit "<b>" ++ x ++ lit "</b>")
    with (Anchor.lt :: (lit "b>" ++ x) ++ lit "</b>").
  do 7 (erewrite LegacyFacts.rule_passes;
        [|reflexivity|exact (Hfree (lit "b>") eq_refl)
         |reflexivity|reflexivity]).
  unfold Legacy.applyRule at 2. cbn [fst snd].
  rewrite (ReplaceFacts.replaceAll_match Anchor.lt (lit "b>") _
             (Anchor.lt :: (lit "b>" ++ x) ++ lit "</b>")
             (x ++ lit "</b>") eq_refl).
  rewrite (ReplaceFacts.replaceAll_free_run _ _ _ _ _ Hx).
  change (WeChat.replaceAll (Anchor.lt :: lit "b>")
            (Legacy.styled "strong" "color: #07c160; font-weight: bold;")
            (lit "</b>"))
    with (lit "</b>").
  change (Legacy.styled "strong" "color: #07c160; font-weight: bold;"
            ++ x ++ lit "</b>")
    with (Anchor.lt
            :: (lit "strong style=" ++ Anchor.quote
                  ++ lit "color: #07c160; font-weight: bold;"
                  ++ Anchor.quote ++ lit ">" ++ x) ++ lit "</b>").
  erewrite LegacyFacts.rule_passes; [reflexivity|reflexivity| |reflexivity|reflexivity].
  rewrite !app_assoc. apply Hfree. reflexivity.
Qed.

(** The statement above at the passage [key]. *)
Lemma X19_bold_is_opened_as_strong_closed_as_b_witness :
  Legacy.formatHtmlForWeChat (lit "<b>" ++ lit "key" ++ lit "</b>")
  = Legacy.styled "strong" "color: #07c160; font-weight: bold;"
    ++ lit "key" ++ lit "</b>".
Proof.
  apply (X19_bold_is_opened_as_strong_closed_as_b (lit "key")).
  reflexivity.
Defined.

(* ===================================================================== *)
(** * The illustrated article is the article with figures put in         *)
(* ===================================================================== *)

Module InsertionFacts.
Import Effects Planner Anchor JSFacts.

(** [insertions n html out]: [out] is [html] after [n] figure fragments
    have been put in, one after the other, each at some place of the
    document as it then is.  Nothing else is added, removed or changed. *)
Inductive insertions : nat -> str -> str -> Prop :=
| insertions_none (html : str) : insertions 0 html html
| insertions_more (n : nat) (html before after data : str) :
    insertions n html (before ++ after) ->
    insertions (S n) html (before ++ imgTag data ++ after).

Lemma insertions_first html before after data : forall n out,
  insertions n (before ++ imgTag data ++ after) out ->
  html = before ++ after ->
  insertions (S n) html out.
Proof.
  intros n out H. remember (before ++ imgTag data ++ after) as mid eqn:Hmid.
  induction H as [mid|n mid b a d H IH]; intros ->.
  - subst mid. apply insertions_more, insertions_none.
  - apply insertions_more. now apply IH.
Qed.

Lemma dollarFree_imgTag data :
  dollarFree data = true -> dollarFree (imgTag data) = true.
Proof.
  intros Hd. unfold imgTag. rewrite !dollarFree_app, Hd. reflexivity.
Qed.

Lemma dollarFree_firstn n s :
  dollarFree s = true -> dollarFree (firstn n s) = true.
Proof.
  revert s. induction n as [|n IH]; intros [|c s] H; simpl in *; auto.
  apply andb_prop in H. destruct H as [Hc Hs]. rewrite Hc. now apply IH.
Qed.

Lemma dollarFree_trim s :
  dollarFree s = true -> dollarFree (trim s) = true.
Proof.
  intros H. destruct (LadderFacts.trim_split s) as (lead & trail & Hs & _).
  rewrite Hs, !dollarFree_app in H.
  apply andb_prop in H. destruct H as [_ H].
  apply andb_prop in H. now destruct H.
Qed.

Section Facts.
Variable simpleUpper : char -> char.
Variable painter : PainterT.

(** One turn of the loop puts one figure in, or leaves the document. *)
Lemma planStep_insertion html i plan :
  (forall s, contextSnippet plan = Some s -> dollarFree s = true) ->
  (forall data, painter i (imagePrompt plan) = inr (Some data) ->
                dollarFree data = true) ->
  match planResult simpleUpper painter html (i, plan) with
  | Inserted _ =>
      exists before after data,
        html = before ++ after
        /\ planStep simpleUpper painter html (i, plan)
           = before ++ imgTag data ++ after
  | Skipped => planStep simpleUpper painter html (i, plan) = html
  end.
Proof.
  intros Hsnippet Hdata.
  destruct (planResult simpleUpper painter html (i, plan)) as [rung|] eqn:E;
    [|now apply PlannerFacts.skipped_unchanged].
  rewrite PlannerFacts.planStep_cases.
  unfold planResult in E. unfold placeImage.
  destruct (painter i (imagePrompt plan)) as [e|[data|]];
    try discriminate.
  specialize (Hdata data eq_refl).
  pose proof (dollarFree_imgTag data Hdata) as Himg.
  destruct (truthy data); [|discriminate].
  destruct (isCover plan).
  { exists [], html, data. split; reflexivity. }
  destruct (contextSnippet plan) as [s|]; [|discriminate].
  specialize (Hsnippet s eq_refl). apply dollarFree_trim in Hsnippet.
  destruct (truthy s); [|discriminate].
  destruct (regexTest simpleUpper (trim s) html) eqn:Htest.
  - unfold regexTest in Htest.
    destruct (paraExec simpleUpper (trim s) html) as [[[b m] a]|] eqn:Hexec;
      [|discriminate].
    destruct (AnchorFacts.paraExec_spec simpleUpper _ _ _ _ _ Hexec)
      as (Hhtml & _).
    exists (b ++ m), a, data. split; [now rewrite <- app_assoc|].
    rewrite (AnchorFacts.paragraph_rung simpleUpper _ _ _ _ _ _ Hexec Hdata).
    now rewrite <- app_assoc.
  - destruct (includes html (trim s)) eqn:Hinc.
    + destruct (RungFacts.bare_substring_rung simpleUpper html (trim s)
                  (imgTag data) Htest Hinc Hsnippet Himg)
        as (before & after & Hhtml & _ & Hout).
      exists (before ++ trim s), after, data.
      split; now rewrite <- app_assoc.
    + destruct (RungFacts.truncated_prefix_rung simpleUpper html (trim s)
                  (imgTag data) Htest Hinc)
        as [(_ & _ & _ & _ & Hplain)|(_ & Hnone & _)].
      * destruct (Hplain (dollarFree_firstn 15 _ Hsnippet) Himg)
          as (before & after & Hhtml & _ & Hout).
        exists (before ++ substring0 15 (trim s)), after, data.
        split; now rewrite <- app_assoc.
      * rewrite Hnone in E. discriminate.
Qed.

(** The loop puts in as many figures as its records say. *)
Lemma loop_insertions : forall ips html,
  Forall (fun ip =>
            (forall s, contextSnippet (snd ip) = Some s ->
                       dollarFree s = true)
            /\ (forall data,
                  painter (fst ip) (imagePrompt (snd ip)) = inr (Some data) ->
                  dollarFree data = true)) ips ->
  insertions
    (length (filter isInserted
               (insertionResults simpleUpper painter html ips)))
    html (fold_left (planStep simpleUpper painter) ips html).
Proof.
  induction ips as [|[i plan] ips IH]; intros html Hall.
  - apply insertions_none.
  - inversion Hall as [|? ? [Hs Hd] Hrest]; subst. cbn [fst snd] in *.
    cbn [insertionResults fold_left filter].
    specialize (IH (planStep simpleUpper painter html (i, plan)) Hrest).
    pose proof (planStep_insertion html i plan Hs Hd) as Hstep.
    destruct (planResult simpleUpper painter html (i, plan)) as [rung|];
      cbn [isInserted length].
    + destruct Hstep as (before & after & data & Hhtml & Hout).
      rewrite Hout in IH |- *.
      now apply (insertions_first html before after data).
    + rewrite Hstep in IH |- *. exact IH.
Qed.

End Facts.
End InsertionFacts.

(** X20.  When no snippet and no image payload contains [$], the
    illustrated article is the article with figure fragments put in and
    nothing else: no text of the article is removed, changed or repeated,
    and the number of fragments is the number of plans that were placed. *)
Theorem X20_illustration_only_inserts_figures
    (simpleUpper : char -> char)
    (planner : Planner.PlannerT) (painter : Planner.PainterT)
    (articleHtml : str) (imageCount : Z)
    (plans : list Planner.PlacementPlan) :
  planner articleHtml imageCount = inr (Some plans) ->
  plans <> [] ->
  Forall (fun plan =>
            forall s, Planner.contextSnippet plan = Some s ->
                      JSFacts.dollarFree s = true) plans ->
  (forall i prompt data,
     painter i prompt = inr (Some data) ->
     JSFacts.dollarFree data = true) ->
  exists updatedHtml,
    Planner.addIllustrationsToArticle simpleUpper planner painter
      articleHtml imageCount = inr updatedHtml
    /\ InsertionFacts.insertions
         (Planner.placedImages simpleUpper painter articleHtml plans)
         articleHtml updatedHtml.
Proof.
  intros Hplans Hne Hsnippets Hpayloads.
  rewrite PlannerFacts.addIllustrations_cases, Hplans.
  destruct plans as [|plan plans]; [congruence|].
  eexists. split; [reflexivity|].
  unfold Planner.placedImages.
  apply InsertionFacts.loop_insertions.
  apply Forall_forall. intros [i p] Hin. cbn [fst snd]. split.
  - rewrite Forall_forall in Hsnippets. apply Hsnippets.
    unfold Planner.indexed in Hin. now apply in_combine_r in Hin.
  - apply Hpayloads.
Qed.

(** The statement above at the sample article with three plans, all painted. *)
Lemma X20_illustration_only_inserts_figures_witness :
  exists updatedHtml,
    Planner.addIllustrationsToArticle Samples.asciiOnly Samples.threePlans
      Samples.allPainted Samples.article 3 = inr updatedHtml
    /\ InsertionFacts.insertions
         (Planner.placedImages Samples.asciiOnly Samples.allPainted
            Samples.article
            [Samples.cover; Samples.inlineAlpha; Samples.inlineZeta])
         Samples.article updatedHtml.
Proof.
  apply (X20_illustration_only_inserts_figures Samples.asciiOnly
           Samples.threePlans Samples.allPainted Samples.article 3
           [Samples.cover; Samples.inlineAlpha; Samples.inlineZeta]).
  - reflexivity.
  - discriminate.
  - repeat constructor; intros s [= <-]; reflexivity.
  - intros i prompt data [= <-]. reflexivity.
Defined.

Module VersionFacts.
Import Effects Planner Anchor JSFacts.

(** Without an occurrence [replace] gives the text back. *)
Lemma replaceString_none s p r :
  includes s p = false -> replaceString s p r = s.
Proof.
  unfold includes, replaceString.
  now destruct (indexOf p s).
Qed.

(** The insertion of the first version is the one of the ladder, the
    third rung apart. *)
Lemma insertAfterParagraph_ladder simpleUpper html snippet img :
  locate simpleUpper html snippet <> TruncatedPrefix ->
  PlannerV1.insertAfterParagraph simpleUpper html snippet img
  = insertInline simpleUpper html snippet img.
Proof.
  unfold PlannerV1.insertAfterParagraph, insertInline, locate.
  destruct (regexTest simpleUpper snippet html); [reflexivity|].
  destruct (includes html snippet) eqn:Hinc; [reflexivity|].
  destruct ((10 <? length (substring0 15 snippet))
            && includes html (substring0 15 snippet)); [congruence|].
  intros _. now apply replaceString_none.
Qed.

(** One turn of the loop of the first version: the error of a plan
    without a snippet is caught like the others. *)
Lemma planStep_v1_cases simpleUpper painter html i plan :
  PlannerV1.planStep simpleUpper painter html (i, plan)
  = match painter i (imagePrompt plan) with
    | inr (Some data) =>
        if truthy data then
          match contextSnippet plan with
          | Some snippet =>
              PlannerV1.insertAfterParagraph simpleUpper html snippet
                (imgTag data)
          | None => html
          end
        else html
    | _ => html
    end.
Proof.
  unfold PlannerV1.planStep, PlannerV1.placeImage.
  destruct (painter i (imagePrompt plan)) as [e|[data|]]; try reflexivity.
  cbn. destruct (truthy data); [|reflexivity].
  now destruct (contextSnippet plan).
Qed.

End VersionFacts.

(** X21.  The two versions of the loop of [addIllustrationsToArticle] do
    the same on a plan that is not the cover and whose snippet, if it has
    one, is not empty, has no white space around it and is not left to
    the third rung: the second version adds the cover, the trimming and
    the truncated prefix, and changes nothing else. *)
Theorem X21_second_version_extends_the_first
    (simpleUpper : char -> char) (painter : Planner.PainterT)
    (html : str) (i : nat) (plan : Planner.PlacementPlan) :
  Planner.isCover plan = false ->
  (forall s, Planner.contextSnippet plan = Some s ->
             truthy s = true /\ trim s = s
             /\ Anchor.locate simpleUpper html s <> Anchor.TruncatedPrefix) ->
  PlannerV1.planStep simpleUpper painter html (i, plan)
  = Planner.planStep simpleUpper painter html (i, plan).
Proof.
  intros Hcover Hsnippet.
  rewrite PlannerFacts.planStep_cases, VersionFacts.planStep_v1_cases.
  unfold Planner.placeImage.
  destruct (painter i (Planner.imagePrompt plan)) as [e|[data|]];
    try reflexivity.
  rewrite Hcover.
  destruct (truthy data); [|reflexivity].
  destruct (Planner.contextSnippet plan) as [s|]; [|reflexivity].
  destruct (Hsnippet s eq_refl) as (-> & -> & Hrung).
  now apply VersionFacts.insertAfterParagraph_ladder.
Qed.

(** The statement above at the sample article and the plan of its first paragraph. *)
Lemma X21_second_version_extends_the_first_witness :
  PlannerV1.planStep Samples.asciiOnly Samples.allPainted Samples.article
    (1, Samples.inlineAlpha)
  = Planner.planStep Samples.asciiOnly Samples.allPainted Samples.article
      (1, Samples.inlineAlpha).
Proof.
  apply (X21_second_version_extends_the_first Samples.asciiOnly
           Samples.allPainted Samples.article 1 Samples.inlineAlpha).
  - reflexivity.
  - intros s [= <-]. repeat split. vm_compute. discriminate.
Defined.

(* ===================================================================== *)
(** * The plain text given to the detection dialog                       *)
(* ===================================================================== *)

Module DetectionFacts.
Import Detection JSFacts.

(** No code unit of [s] is [>]. *)
Definition noGt (s : str) : bool := forallb (fun c => negb (eqc c gt)) s.

(** No tag can be read anywhere in [s]. *)
Definition tagFree (s : str) : Prop := forall k, tagAt (skipn k s) = None.

Lemma untilGt_Some s : forall rest,
  untilGt s = Some rest ->
  exists inside, s = inside ++ gt :: rest.
Proof.
  induction s as [|c s IH]; intros rest H; simpl in H; [discriminate|].
  destruct (eqc c gt) eqn:E.
  - apply eqc_eq in E. subst c. injection H as <-. now exists [].
  - destruct (untilGt s) as [r|] eqn:Hs; [|discriminate].
    injection H as <-. destruct (IH r eq_refl) as [inside ->].
    now exists (c :: inside).
Qed.

Lemma untilGt_None s : untilGt s = None <-> noGt s = true.
Proof.
  induction s as [|c s IH]; simpl; [split; reflexivity|].
  destruct (eqc c gt); simpl; [split; discriminate|].
  rewrite <- IH. destruct (untilGt s); split; congruence.
Qed.

Lemma tagAt_noGt s : noGt s = true -> tagAt s = None.
Proof.
  destruct s as [|c [|d s]]; try reflexivity.
  simpl. intros H. apply andb_prop in H. destruct H as [_ H].
  apply andb_prop in H. destruct H as [_ H].
  destruct (eqc c Anchor.lt && negb (eqc d gt)); [|reflexivity].
  now apply untilGt_None.
Qed.

(** What follows a tag read at the head of [c :: s]. *)
Lemma tagAt_rest c s rest :
  tagAt (c :: s) = Some rest ->
  skipn (length s - length rest) s = rest /\ length rest < length s.
Proof.
  destruct s as [|d s]; [discriminate|]. cbn [tagAt].
  destruct (eqc c Anchor.lt && negb (eqc d gt)); [|discriminate].
  intros H. apply untilGt_Some in H. destruct H as [inside ->].
  cbn [length]. rewrite length_app. cbn [length].
  replace (S (length inside + S (length rest)) - length rest)
    with (length (d :: inside ++ [gt])).
  - change (d :: inside ++ gt :: rest) with ((d :: inside) ++ gt :: rest).
    replace ((d :: inside) ++ gt :: rest)
      with ((d :: inside ++ [gt]) ++ rest)
      by (cbn [app]; now rewrite <- app_assoc).
    rewrite skipn_app, skipn_all, Nat.sub_diag. split; [reflexivity|lia].
  - cbn [length]. rewrite length_app. cbn [length]. lia.
Qed.

Lemma stripTagsFrom_skip s : forall skip,
  stripTagsFrom skip s = stripTags (skipn skip s).
Proof.
  unfold stripTags.
  induction s as [|c s IH]; intros [|skip]; try reflexivity.
  cbn [stripTagsFrom skipn]. apply IH.
Qed.

Lemma stripTags_tag c s rest :
  tagAt (c :: s) = Some rest -> stripTags (c :: s) = stripTags rest.
Proof.
  intros H. unfold stripTags at 1. cbn [stripTagsFrom].
  rewrite H, stripTagsFrom_skip.
  now destruct (tagAt_rest c s rest H) as [-> _].
Qed.

Lemma stripTags_copy c s :
  tagAt (c :: s) = None -> stripTags (c :: s) = c :: stripTags s.
Proof.
  intros H. unfold stripTags. cbn [stripTagsFrom]. now rewrite H.
Qed.

(** Where no tag can be read nothing is removed. *)
Lemma stripTags_tagFree s : tagFree s -> stripTags s = s.
Proof.
  induction s as [|c s IH]; intros Hfree; [reflexivity|].
  rewrite stripTags_copy by apply (Hfree 0).
  f_equal. apply IH. intros k. apply (Hfree (S k)).
Qed.

Lemma noGt_tagFree s : noGt s = true -> tagFree s.
Proof.
  intros H k. apply tagAt_noGt. unfold noGt in *.
  rewrite forallb_forall in *. intros c Hc. apply H.
  rewrite <- (firstn_skipn k s). apply in_or_app. now right.
Qed.

(** In the result no tag can be read. *)
Lemma stripTags_result : forall n s, length s <= n -> tagFree (stripTags s).
Proof.
  induction n as [|n IH]; intros s Hlen.
  - destruct s; [|simpl in Hlen; lia]. intros k. now rewrite skipn_nil.
  - destruct s as [|c s]; [intros k; now rewrite skipn_nil|].
    simpl in Hlen.
    destruct (tagAt (c :: s)) as [rest|] eqn:E.
    + rewrite (stripTags_tag _ _ _ E). apply IH.
      destruct (tagAt_rest _ _ _ E) as [_ Hrest]. lia.
    + rewrite (stripTags_copy _ _ E).
      assert (Hs : tagFree (stripTags s)) by (apply IH; lia).
      intros [|k]; [|apply Hs]. cbn [skipn].
      destruct s as [|d s]; [reflexivity|].
      cbn [tagAt] in E.
      destruct (eqc c Anchor.lt) eqn:Hc;
        [|destruct (stripTags (d :: s));
          [reflexivity|cbn [tagAt]; now rewrite Hc]].
      destruct (eqc d gt) eqn:Hd.
      * rewrite stripTags_copy.
        -- cbn [tagAt]. now rewrite Hd, andb_false_r.
        -- apply eqc_eq in Hd. subst d. now destruct s.
      * cbn [andb negb] in E. apply untilGt_None in E.
        assert (Hno : noGt (d :: s) = true).
        { cbn [noGt forallb]. rewrite Hd. exact E. }
        rewrite (stripTags_tagFree _ (noGt_tagFree _ Hno)).
        cbn [tagAt]. rewrite Hc, Hd. cbn [andb negb].
        now apply untilGt_None.
Qed.

End DetectionFacts.

(** X22.  In the plain text given to the detection dialog no tag is
    left: nowhere in it does [<] come with one code unit or more and then
    [>].  Removing the tags a second time changes nothing, and a text
    without [>] is not changed at all, so a [<] that opens no tag stays. *)
Theorem X22_no_tag_is_left (s : str) :
  (forall k, Detection.tagAt (skipn k (Detection.stripTags s)) = None)
  /\ Detection.stripTags (Detection.stripTags s) = Detection.stripTags s
  /\ (DetectionFacts.noGt s = true -> Detection.stripTags s = s).
Proof.
  pose proof (DetectionFacts.stripTags_result (length s) s (le_n _)) as H.
  split; [exact H|]. split.
  - now apply DetectionFacts.stripTags_tagFree.
  - intros Hno. apply DetectionFacts.stripTags_tagFree.
    now apply DetectionFacts.noGt_tagFree.
Qed.
